(** * cmd/trace: pprof-like profiles from execution-trace events

    A shallow embedding of [src/cmd/trace/pprof.go]: the goroutine filter
    ([pprofMatchingGoroutines]), the four stack aggregators ([pprofIO],
    [pprofBlock], [pprofSyscall], [pprofSched]), the profile builder
    ([buildProfile]) and the temporary-file life cycle of the rendered
    branch of [serveSVGProfile].

    Conventions.  Go's [uint64] and [int64] values are integers of [Z]; every
    arithmetic operation of the source is followed by its wrap-around
    ([wrapU64], [wrapI64]).  Go maps are [gmap]s, a map used as a set is a
    [gset], a nil map or pointer is [None].  Pointers to objects that are
    never mutated after their creation ([*trace.Frame], [*profile.Location],
    [*profile.Function]) are the objects themselves. *)

From Stdlib Require Import ZArith Lia Ascii String.
From stdpp Require Import gmap strings list fin_maps.

#[local] Set Warnings "-register-all".

Local Open Scope Z_scope.

(** ** Machine integers *)

Definition wrapU64 (z : Z) : Z := z mod 2 ^ 64.

Definition wrapI64 (z : Z) : Z := (z + 2 ^ 63) mod 2 ^ 64 - 2 ^ 63.

(** The conversion [int64(x)] of a [uint64]. *)
Definition int64_of_uint64 (z : Z) : Z := wrapI64 z.

(** ** Package internal/trace *)

Module trace.

(** Modelled from the spec: the event-type tags of [internal/trace], of which
    the source names ten; every other tag is [EvOther] with its code. *)
Inductive EvType :=
  | EvGoCreate | EvGoUnblock
  | EvGoBlockSend | EvGoBlockRecv | EvGoBlockSelect
  | EvGoBlockSync | EvGoBlockCond | EvGoBlockNet
  | EvGoSysCall | EvGoBlockGC
  | EvOther (code : Z).

(** Modelled from the spec: [trace.Frame], a program counter with its
    function, file and line. *)
Record Frame := mkFrame { PC : Z; Fn : string; File : string; Line : Z }.

(** Modelled from the spec: the fields of [trace.Event] the profiles read.
    [Link] is the pointer to the paired event, [None] when nil. *)
Inductive Event := mkEvent {
  Type_ : EvType;
  Ts : Z;
  G : Z;
  StkID : Z;
  Stk : list Frame;
  Link : option Event
}.

(** Modelled from the spec: the fields of [trace.GDesc] the filter reads: the
    goroutine's id and the program counter it was created at. *)
Record GDesc := mkGDesc { ID : Z; GPC : Z }.

End trace.

#[global] Instance EvType_eq_dec : EqDecision trace.EvType.
Proof. solve_decision. Defined.

#[global] Instance Frame_eq_dec : EqDecision trace.Frame.
Proof. solve_decision. Defined.

(** ** Records *)

(** [Record] of the source: one entry of a pprof-like profile. *)
Record Record_ := mkRecord { stk : list trace.Frame; n : Z; time : Z }.

#[global] Instance Record_eq_dec : EqDecision Record_.
Proof. solve_decision. Defined.

(** The zero value a Go map yields for an absent key. *)
Definition zeroRecord : Record_ := mkRecord [] 0 0.

(** ** strconv.ParseUint(s, 10, 64)

    The library function, as far as the source uses it: [None] stands for a
    non-nil error (syntax or range). *)

Definition digit_of (c : ascii) : option Z :=
  let k := Z.of_nat (nat_of_ascii c) in
  if bool_decide (48 ≤ k ≤ 57) then Some (k - 48) else None.

Definition maxUint64 : Z := 2 ^ 64 - 1.

Fixpoint parseDigits (s : string) (acc : Z) : option Z :=
  match s with
  | EmptyString => Some acc
  | String c s' =>
      match digit_of c with
      | None => None
      | Some d =>
          if bool_decide (maxUint64 / 10 + 1 ≤ acc) then None
          else
            let n1 := acc * 10 + d in
            if bool_decide (maxUint64 < n1) then None else parseDigits s' n1
      end
  end.

Definition ParseUint (s : string) : option Z :=
  match s with
  | EmptyString => None
  | _ => parseDigits s 0
  end.

(** ** The goroutine filter *)

(** A Go [error], carrying its message. *)
Inductive error := Errorf (msg : string).

#[global] Instance error_eq_dec : EqDecision error.
Proof. solve_decision. Defined.

(** The body of the loop over [gs]: [res] is [None] while the map is nil. *)
Definition matchGoroutine (pc : Z) (res : option (gset Z)) (g : trace.GDesc)
  : option (gset Z) :=
  if bool_decide (trace.GPC g ≠ pc) then res
  else
    let res' := match res with None => ∅ | Some s => s end in
    Some ({[ trace.ID g ]} ∪ res').

(** [len(res)] of a possibly nil map. *)
Definition len_res (res : option (gset Z)) : nat :=
  match res with None => 0%nat | Some s => size s end.

(** [pprofMatchingGoroutines].  [analyzeGoroutines] is not part of the
    source file: it is a parameter, giving the goroutines of the global table
    [gs] after the call, in the order the loop visits them. *)
Definition pprofMatchingGoroutines
    (analyzeGoroutines : list trace.Event → list trace.GDesc)
    (id : string) (events : list trace.Event)
  : option (gset Z) * option error :=
  if bool_decide (id = "") then (None, None)
  else
    match ParseUint id with
    | None => (None, Some (Errorf ("invalid goroutine type: " +:+ id)))
    | Some pc =>
        let gs := analyzeGoroutines events in
        let res := fold_left (matchGoroutine pc) gs None in
        if bool_decide (len_res res = 0%nat) && bool_decide (id ≠ "")
        then (None,
              Some (Errorf ("failed to find matching goroutines for id: " +:+ id)))
        else (res, None)
    end.

(** ** The stack aggregators *)

Definition isNil {A} (o : option A) : bool :=
  match o with None => true | Some _ => false end.

(** [goroutines != nil && !goroutines[ev.G]] *)
Definition filteredOut (goroutines : option (gset Z)) (g : Z) : bool :=
  match goroutines with
  | None => false
  | Some s => negb (bool_decide (g ∈ s))
  end.

(** The four statements every loop ends with:
    [rec := prof[ev.StkID]; rec.stk = ev.Stk; rec.n++;
     rec.time += ev.Link.Ts - ev.Ts; prof[ev.StkID] = rec]. *)
Definition addEvent (prof : gmap Z Record_) (ev link : trace.Event)
  : gmap Z Record_ :=
  let rec := default zeroRecord (prof !! trace.StkID ev) in
  let rec' :=
    {| stk := trace.Stk ev;
       n := wrapU64 (n rec + 1);
       time := wrapI64 (time rec + wrapI64 (trace.Ts link - trace.Ts ev)) |} in
  <[ trace.StkID ev := rec' ]> prof.

(** One iteration of a loop whose first test is [skipType ev.Type || ...]. *)
Definition loopBody (skipType : trace.EvType → bool)
    (goroutines : option (gset Z)) (prof : gmap Z Record_) (ev : trace.Event)
  : gmap Z Record_ :=
  if skipType (trace.Type_ ev) || isNil (trace.Link ev)
     || bool_decide (trace.StkID ev = 0)
     || bool_decide (length (trace.Stk ev) = 0%nat)
  then prof
  else if filteredOut goroutines (trace.G ev) then prof
  else
    match trace.Link ev with
    | Some link => addEvent prof ev link
    | None => prof
    end.

(** [ev.Type != trace.EvGoBlockNet] *)
Definition skipIO (t : trace.EvType) : bool :=
  bool_decide (t ≠ trace.EvGoBlockNet).

(** The [switch] of [pprofBlock]: the [default] case continues. *)
Definition skipBlock (t : trace.EvType) : bool :=
  match t with
  | trace.EvGoBlockSend | trace.EvGoBlockRecv | trace.EvGoBlockSelect
  | trace.EvGoBlockSync | trace.EvGoBlockCond | trace.EvGoBlockGC => false
  | _ => true
  end.

(** [ev.Type != trace.EvGoSysCall] *)
Definition skipSyscall (t : trace.EvType) : bool :=
  bool_decide (t ≠ trace.EvGoSysCall).

(** [ev.Type != trace.EvGoUnblock && ev.Type != trace.EvGoCreate] *)
Definition skipSched (t : trace.EvType) : bool :=
  bool_decide (t ≠ trace.EvGoUnblock) && bool_decide (t ≠ trace.EvGoCreate).

(** The record maps the four functions hand to [buildProfile]. *)
Definition pprofIO_prof (goroutines : option (gset Z))
    (events : list trace.Event) : gmap Z Record_ :=
  fold_left (loopBody skipIO goroutines) events ∅.

Definition pprofBlock_prof (goroutines : option (gset Z))
    (events : list trace.Event) : gmap Z Record_ :=
  fold_left (loopBody skipBlock goroutines) events ∅.

Definition pprofSyscall_prof (goroutines : option (gset Z))
    (events : list trace.Event) : gmap Z Record_ :=
  fold_left (loopBody skipSyscall goroutines) events ∅.

Definition pprofSched_prof (goroutines : option (gset Z))
    (events : list trace.Event) : gmap Z Record_ :=
  fold_left (loopBody skipSched goroutines) events ∅.

(** The four profile categories, one per route. *)
Inductive Category := NetworkWait | SyncBlock | SyscallWait | SchedLatency.

Definition skipType (c : Category) : trace.EvType → bool :=
  match c with
  | NetworkWait => skipIO
  | SyncBlock => skipBlock
  | SyscallWait => skipSyscall
  | SchedLatency => skipSched
  end.

Definition aggregate (c : Category) (goroutines : option (gset Z))
    (events : list trace.Event) : gmap Z Record_ :=
  match c with
  | NetworkWait => pprofIO_prof goroutines events
  | SyncBlock => pprofBlock_prof goroutines events
  | SyscallWait => pprofSyscall_prof goroutines events
  | SchedLatency => pprofSched_prof goroutines events
  end.

(** The part of [pprofIO], [pprofBlock], [pprofSyscall] and [pprofSched]
    before [buildProfile(prof).Write(w)]: the error returned before that
    call, or the record map [prof] the call receives.  What the functions
    return, the result of [Write] included, is [profError].  [parseEvents]
    is the result of the call [parseEvents()]. *)
Definition pprofRecords
    (loop : option (gset Z) → list trace.Event → gmap Z Record_)
    (parseEvents : error + list trace.Event)
    (analyzeGoroutines : list trace.Event → list trace.GDesc)
    (id : string) : error + gmap Z Record_ :=
  match parseEvents with
  | inl err => inl err
  | inr events =>
      match pprofMatchingGoroutines analyzeGoroutines id events with
      | (_, Some err) => inl err
      | (goroutines, None) => inr (loop goroutines events)
      end
  end.

(** The four functions up to their call of [buildProfile]. *)
Definition pprofIO := pprofRecords pprofIO_prof.
Definition pprofBlock := pprofRecords pprofBlock_prof.
Definition pprofSyscall := pprofRecords pprofSyscall_prof.
Definition pprofSched := pprofRecords pprofSched_prof.

Definition pprof (c : Category) :=
  match c with
  | NetworkWait => pprofIO
  | SyncBlock => pprofBlock
  | SyscallWait => pprofSyscall
  | SchedLatency => pprofSched
  end.

(** ** Package github.com/google/pprof/profile *)

Module profile.

(** Modelled from the spec: the fields of the profile types that
    [buildProfile] sets.  A [*Function] or [*Location] is the object. *)
Record ValueType := mkValueType { Type_ : string; Unit : string }.

Record Function := mkFunction {
  Function_ID : Z;
  Name : string;
  SystemName : string;
  Filename : string
}.

Record Line := mkLine { Line_Function : Function; Line_Line : Z }.

Record Location := mkLocation {
  Location_ID : Z;
  Address : Z;
  Location_Line : list Line
}.

Record Sample := mkSample { Value : list Z; Sample_Location : list Location }.

Record Profile := mkProfile {
  PeriodType : ValueType;
  Period : Z;
  SampleType : list ValueType;
  p_Sample : list Sample;
  p_Location : list Location;
  p_Function : list Function
}.

End profile.

#[global] Instance ValueType_eq_dec : EqDecision profile.ValueType.
Proof. solve_decision. Defined.

#[global] Instance Function_eq_dec : EqDecision profile.Function.
Proof. solve_decision. Defined.

#[global] Instance Line_eq_dec : EqDecision profile.Line.
Proof. solve_decision. Defined.

#[global] Instance Location_eq_dec : EqDecision profile.Location.
Proof. solve_decision. Defined.

#[global] Instance Sample_eq_dec : EqDecision profile.Sample.
Proof. solve_decision. Defined.

(** ** The profile builder *)

(** The local state of [buildProfile]: the profile under construction and
    the two lookup tables. *)
Record builder := mkBuilder {
  p : profile.Profile;
  locs : gmap Z profile.Location;
  funcs : gmap string profile.Function
}.

Definition appendFunction (q : profile.Profile) (fn : profile.Function)
  : profile.Profile :=
  profile.mkProfile (profile.PeriodType q) (profile.Period q)
    (profile.SampleType q) (profile.p_Sample q) (profile.p_Location q)
    (profile.p_Function q ++ [fn]).

Definition appendLocation (q : profile.Profile) (loc : profile.Location)
  : profile.Profile :=
  profile.mkProfile (profile.PeriodType q) (profile.Period q)
    (profile.SampleType q) (profile.p_Sample q) (profile.p_Location q ++ [loc])
    (profile.p_Function q).

Definition appendSample (q : profile.Profile) (s : profile.Sample)
  : profile.Profile :=
  profile.mkProfile (profile.PeriodType q) (profile.Period q)
    (profile.SampleType q) (profile.p_Sample q ++ [s]) (profile.p_Location q)
    (profile.p_Function q).

(** The key of the [funcs] table: [frame.File+frame.Fn]. *)
Definition funcKey (frame : trace.Frame) : string :=
  trace.File frame +:+ trace.Fn frame.

(** [fn := funcs[frame.File+frame.Fn]; if fn == nil { ... }].  The new id is
    [uint64(len(p.Function) + 1)]; a slice length is a non-negative [int], so
    the conversion does not wrap. *)
Definition internFunction (b : builder) (frame : trace.Frame)
  : profile.Function * builder :=
  match funcs b !! funcKey frame with
  | Some fn => (fn, b)
  | None =>
      let fn :=
        profile.mkFunction
          (Z.of_nat (length (profile.p_Function (p b)) + 1))
          (trace.Fn frame) (trace.Fn frame) (trace.File frame) in
      (fn, mkBuilder (appendFunction (p b) fn) (locs b)
             (<[ funcKey frame := fn ]> (funcs b)))
  end.

(** [loc := locs[frame.PC]; if loc == nil { ... }] *)
Definition internLocation (b : builder) (frame : trace.Frame)
  : profile.Location * builder :=
  match locs b !! trace.PC frame with
  | Some loc => (loc, b)
  | None =>
      let '(fn, b1) := internFunction b frame in
      let loc :=
        profile.mkLocation
          (Z.of_nat (length (profile.p_Location (p b1)) + 1))
          (trace.PC frame)
          [ profile.mkLine fn (trace.Line frame) ] in
      (loc, mkBuilder (appendLocation (p b1) loc)
              (<[ trace.PC frame := loc ]> (locs b1)) (funcs b1))
  end.

(** The body of the loop over [rec.stk], ending in
    [sloc = append(sloc, loc)]. *)
Definition addFrame (acc : builder * list profile.Location)
    (frame : trace.Frame) : builder * list profile.Location :=
  let '(loc, b') := internLocation acc.1 frame in
  (b', acc.2 ++ [loc]).

(** The body of the loop over [prof]. *)
Definition addRecord (b : builder) (rec : Record_) : builder :=
  let '(b', sloc) := fold_left addFrame (stk rec) (b, []) in
  mkBuilder
    (appendSample (p b')
       (profile.mkSample [ int64_of_uint64 (n rec); time rec ] sloc))
    (locs b') (funcs b').

Definition emptyProfile : profile.Profile :=
  profile.mkProfile (profile.mkValueType "trace" "count") 1
    [ profile.mkValueType "contentions" "count";
      profile.mkValueType "delay" "nanoseconds" ]
    [] [] [].

(** [buildProfile] on the records in the order the [range] over the map
    visits them. *)
Definition buildProfileFrom (recs : list Record_) : profile.Profile :=
  p (fold_left addRecord recs (mkBuilder emptyProfile ∅ ∅)).

(** Go leaves the iteration order of a map unspecified: [recs] is a possible
    order of visit of [prof] when it lists the records of [prof], each
    once. *)
Definition rangeOrder (prof : gmap Z Record_) (recs : list Record_) : Prop :=
  recs ≡ₚ (map_to_list prof).*2.

(** One order of visit, for evaluation. *)
Definition buildProfile (prof : gmap Z Record_) : profile.Profile :=
  buildProfileFrom (map_to_list prof).*2.

(** ** The render service: temporary files of [serveSVGProfile]

    Persistent storage is the set of paths that exist.  What the handler's
    collaborators do during one request is an [Outcome]: the handler itself
    is a function of it. *)

Definition newline : string := String (ascii_of_nat 10) EmptyString.

Definition errMsg (e : error) : string := match e with Errorf m => m end.

Record Outcome := mkOutcome {
  (** [r.FormValue("raw")] *)
  raw : string;
  (** [ioutil.TempFile("", "block")]: the name of the file it created, or the
      error *)
  tempFile : error + string;
  (** [prof(w, id)], [blockb.Flush()], [blockf.Close()]: nil or an error *)
  profErr : option error;
  flushErr : option error;
  closeErr : option error;
  (** [go tool pprof -svg -output svgFilename ...]: whether the process left a
      file at the output path, its combined output and its error *)
  pprofWroteOutput : bool;
  pprofOutput : string;
  pprofErr : option error
}.

Inductive Response :=
  | RawProfile
  | StatusInternalServerError (msg : string)
  | StatusNotFound
  | ServeFile (contentType path : string).

(** [http.ServeFile(w, r, name)] of the library, once the content type is
    set: the file is served when it exists on the storage, and the answer is
    404 when it does not. *)
Definition httpServeFile (fs : gset string) (contentType name : string)
  : Response :=
  if bool_decide (name ∈ fs) then ServeFile contentType name
  else StatusNotFound.

(** [os.Remove(path)]; the source ignores its error and so does the model:
    the path is gone afterwards. *)
Definition osRemove (path : string) (fs : gset string) : gset string :=
  fs ∖ {[ path ]}.

(** Deferred calls run last-in first-out when the handler returns; [defers]
    holds the paths of the deferred [os.Remove] calls, most recent first. *)
Definition runDefers (defers : list string) (fs : gset string) : gset string :=
  fold_left (λ fs' path, osRemove path fs') defers fs.

(** The rendered branch after the temporary file [name] was created and its
    removal deferred: the storage, the deferred removals and the response at
    the point of return. *)
Definition renderedBody (o : Outcome) (name : string) (fs : gset string)
  : gset string * list string * Response :=
  let defers := [name] in
  match profErr o with
  | Some err =>
      (fs, defers,
       StatusInternalServerError ("failed to generate profile: " +:+ errMsg err))
  | None =>
  match flushErr o with
  | Some err =>
      (fs, defers,
       StatusInternalServerError ("failed to flush temp file: " +:+ errMsg err))
  | None =>
  match closeErr o with
  | Some err =>
      (fs, defers,
       StatusInternalServerError ("failed to close temp file: " +:+ errMsg err))
  | None =>
      let svgFilename := name +:+ ".svg" in
      let fs' := if pprofWroteOutput o then {[ svgFilename ]} ∪ fs else fs in
      match pprofErr o with
      | Some err =>
          (fs', defers,
           StatusInternalServerError
             ("failed to execute go tool pprof: " +:+ errMsg err +:+ newline
                +:+ pprofOutput o))
      | None =>
          (fs', svgFilename :: defers,
           httpServeFile fs' "image/svg+xml" svgFilename)
      end
  end end end.

(** The handler [serveSVGProfile(prof)] returns, on storage [fs]. *)
Definition serveSVGProfile (o : Outcome) (fs : gset string)
  : gset string * Response :=
  if bool_decide (raw o ≠ "") then
    match profErr o with
    | Some err =>
        (fs, StatusInternalServerError ("failed to get profile: " +:+ errMsg err))
    | None => (fs, RawProfile)
    end
  else
    match tempFile o with
    | inl err =>
        (fs, StatusInternalServerError
               ("failed to create temp file: " +:+ errMsg err))
    | inr name =>
        let '(fs', defers, resp) := renderedBody o name ({[ name ]} ∪ fs) in
        (runDefers defers fs', resp)
    end.

(** * Specification vocabulary *)

(** ** Qualifying events and what a record sums up *)

(** An event reaches the last four statements of a loop. *)
Definition qualifies (c : Category) (goroutines : option (gset Z))
    (ev : trace.Event) : bool :=
  negb (skipType c (trace.Type_ ev))
  && negb (isNil (trace.Link ev))
  && negb (bool_decide (trace.StkID ev = 0))
  && negb (bool_decide (length (trace.Stk ev) = 0%nat))
  && negb (filteredOut goroutines (trace.G ev)).

(** [ev.Link.Ts - ev.Ts], in [int64]. *)
Definition duration (ev : trace.Event) : Z :=
  match trace.Link ev with
  | Some link => wrapI64 (trace.Ts link - trace.Ts ev)
  | None => 0
  end.

(** The sum of a list of integers. *)
Definition sumZ (l : list Z) : Z := foldr Z.add 0 l.

(** What a record holds after the events [qs] were added to it, in order. *)
Definition summary (qs : list trace.Event) : option Record_ :=
  match last qs with
  | None => None
  | Some ev =>
      Some {| stk := trace.Stk ev;
              n := wrapU64 (Z.of_nat (length qs));
              time := wrapI64 (sumZ (duration <$> qs)) |}
  end.

(** The qualifying events of [events] with stack identifier [id]. *)
Definition qualifying (c : Category) (goroutines : option (gset Z)) (id : Z)
    (events : list trace.Event) : list trace.Event :=
  filter (λ ev, qualifies c goroutines ev = true ∧ trace.StkID ev = id) events.

(** The (count, duration) pair of a record, and the triples of a map. *)
Definition counts (r : Record_) : Z * Z := (n r, time r).

Definition triples (prof : gmap Z Record_) : list (Z * Z * Z) :=
  (λ kr, (kr.1, n kr.2, time kr.2)) <$> map_to_list prof.

(** ** Example frames and events *)

Definition sampleFrame : trace.Frame := trace.mkFrame 4096 "main.f" "main.go" 10.

Definition otherFrame : trace.Frame := trace.mkFrame 8192 "main.g" "main.go" 20.

(** An end event at time [ts], and a network-block event of goroutine [g]
    starting at [ts0] and linked to an end event at [ts1]. *)
Definition endEvent (ts : Z) : trace.Event :=
  trace.mkEvent trace.EvGoUnblock ts 0 0 [] None.

Definition netBlock (g ts0 ts1 id : Z) (s : list trace.Frame) : trace.Event :=
  trace.mkEvent trace.EvGoBlockNet ts0 g id s (Some (endEvent ts1)).

(** ** First-seen order *)

Section first_seen_order.
Context {A K : Type} `{Countable K} (key : A → K).

(** Keep [x] when no earlier element has its key. *)
Definition seeNextBy (acc : list A) (x : A) : list A :=
  if decide (key x ∈ key <$> acc) then acc else acc ++ [x].

(** The elements of [l] whose key occurs for the first time, in order. *)
Definition firstSeenBy (l : list A) : list A := fold_left seeNextBy l [].

(** The number of distinct keys of [l]. *)
Definition distinct (l : list A) : nat :=
  size (list_to_set (key <$> l) : gset K).

End first_seen_order.

(** ** The tables and the samples of the profile builder *)

(** The key under which the function table holds [fn]. *)
Definition fnKey (fn : profile.Function) : string :=
  profile.Filename fn +:+ profile.Name fn.

(** The (source file, function name) pair of a frame. *)
Definition framePair (frame : trace.Frame) : string * string :=
  (trace.File frame, trace.Fn frame).

(** The frames that introduce a program counter, and those among them that
    introduce a key of the function table. *)
Definition locFrames (frames : list trace.Frame) : list trace.Frame :=
  firstSeenBy trace.PC frames.

Definition fnFrames (frames : list trace.Frame) : list trace.Frame :=
  firstSeenBy funcKey (locFrames frames).

(** The function entry created at index [i] for [frame]. *)
Definition mkFn (i : nat) (frame : trace.Frame) : profile.Function :=
  profile.mkFunction (Z.of_nat (i + 1)) (trace.Fn frame) (trace.Fn frame)
    (trace.File frame).

(** What the builder's tables hold once the frames [frames] went through the
    inner loop. *)
Record Tables (frames : list trace.Frame) (b : builder) : Prop := mkTables {
  T_addr :
    profile.Address <$> profile.p_Location (p b) = trace.PC <$> locFrames frames;
  T_loc : ∀ i loc,
    profile.p_Location (p b) !! i = Some loc →
    ∃ frame fn,
      locFrames frames !! i = Some frame
      ∧ loc = profile.mkLocation (Z.of_nat (i + 1)) (trace.PC frame)
                [ profile.mkLine fn (trace.Line frame) ]
      ∧ fn ∈ profile.p_Function (p b)
      ∧ fnKey fn = funcKey frame;
  T_locs : ∀ pc loc,
    locs b !! pc = Some loc
    ↔ loc ∈ profile.p_Location (p b) ∧ profile.Address loc = pc;
  T_fn : profile.p_Function (p b) = imap mkFn (fnFrames frames);
  T_funcs : ∀ key fn,
    funcs b !! key = Some fn ↔ fn ∈ profile.p_Function (p b) ∧ fnKey fn = key
}.

(** The locations a sample lists for a stack: one per frame, in order, each
    an entry of the location list [locations] at the frame's address. *)
Definition mirrorsStack (locations : list profile.Location)
    (stack : list trace.Frame) (sloc : list profile.Location) : Prop :=
  Forall2 (λ frame loc, loc ∈ locations ∧ profile.Address loc = trace.PC frame)
    stack sloc.

(** All frames of the records, in the order the loops walk them. *)
Definition allFrames (recs : list Record_) : list trace.Frame :=
  mjoin (stk <$> recs).

(** Sample [i] belongs to record [i]. *)
Definition samplesOf (recs : list Record_) (q : profile.Profile) : Prop :=
  Forall2
    (λ rec s,
       profile.Value s = [ int64_of_uint64 (n rec); time rec ]
       ∧ mirrorsStack (profile.p_Location q) (stk rec)
           (profile.Sample_Location s))
    recs (profile.p_Sample q).

(** The number of times [x] occurs in [l]. *)
Definition occurrences {A} `{EqDecision A} (x : A) (l : list A) : nat :=
  length (filter (λ y, y = x) l).

(** All frames of all record stacks of a map. *)
Definition framesOf (prof : gmap Z Record_) : list trace.Frame :=
  allFrames (map_to_list prof).*2.

(** A map of one record, whose stack visits [sampleFrame] twice. *)
Definition twoFrameProf : gmap Z Record_ :=
  {[ 7 := mkRecord [sampleFrame; otherFrame; sampleFrame] 3 900 ]}.

(** The counts as the specification states them: one location for each
    distinct program counter and one function for each distinct
    (file, function) pair of the frames. *)
Definition dedup_counts_claim : Prop :=
  ∀ prof recs, rangeOrder prof recs →
    length (profile.p_Location (buildProfileFrom recs))
    = distinct trace.PC (framesOf prof)
    ∧ length (profile.p_Function (buildProfileFrom recs))
      = distinct framePair (framesOf prof).

(** One record whose two frames share a program counter and differ in their
    function. *)
Definition sharedPC : Record_ :=
  mkRecord [ trace.mkFrame 4096 "main.f" "main.go" 10;
             trace.mkFrame 4096 "main.g" "main.go" 20 ] 1 5.

(** One record whose two frames differ in program counter, file and function
    and agree on the concatenation of file and function. *)
Definition sharedKey : Record_ :=
  mkRecord [ trace.mkFrame 4096 "bc" "a" 1; trace.mkFrame 8192 "c" "ab" 2 ] 1 5.

(** ** Decimal numerals *)

(** Every character of [s] is a decimal digit. *)
Fixpoint allDigits (s : string) : bool :=
  match s with
  | EmptyString => true
  | String c s' => bool_decide (is_Some (digit_of c)) && allDigits s'
  end.

(** The number denoted by the digits of [s], read after the number [acc]. *)
Fixpoint decimalFrom (s : string) (acc : Z) : Z :=
  match s with
  | EmptyString => acc
  | String c s' => decimalFrom s' (acc * 10 + default 0 (digit_of c))
  end.

(** ** The goroutines created at a program counter *)

(** The ids of the goroutines of [gs] created at [pc]. *)
Definition matching (pc : Z) (gs : list trace.GDesc) : gset Z :=
  list_to_set (trace.ID <$> filter (λ g, trace.GPC g = pc) gs).

(** The two errors of the filter. *)
Definition invalidGoroutineType (id : string) : error :=
  Errorf ("invalid goroutine type: " +:+ id).

Definition noMatchingGoroutines (id : string) : error :=
  Errorf ("failed to find matching goroutines for id: " +:+ id).

(** Goroutines 1 and 3 were created at program counter 2748 (0xABC). *)
Definition threeGoroutines : list trace.GDesc :=
  [trace.mkGDesc 1 2748; trace.mkGDesc 2 17; trace.mkGDesc 3 2748].

(** ** Outcomes of a rendered-branch request *)

(** Whether the rendered branch reaches the renderer. *)
Definition rendererRuns (o : Outcome) : bool :=
  isNil (profErr o) && isNil (flushErr o) && isNil (closeErr o).

(** Membership in a storage built from unions and differences. *)
Ltac storage_solver :=
  rewrite ?elem_of_difference, ?elem_of_union, ?elem_of_singleton;
  intuition congruence.

(** A request whose renderer writes its output file and then fails. *)
Definition failedRender : Outcome :=
  mkOutcome "" (inr "/tmp/block123") None None None
    true "pprof: write error" (Some (Errorf "exit status 2")).

(** ** Vocabulary of the further properties *)

(** [ev.Link.Ts - ev.Ts] as an integer, before any wrap-around. *)
Definition exactDuration (ev : trace.Event) : Z :=
  match trace.Link ev with
  | Some link => trace.Ts link - trace.Ts ev
  | None => 0
  end.

(** What a sample shows of its record: its values and the addresses of its
    locations. *)
Definition sampleSignature (s : profile.Sample) : list Z * list Z :=
  (profile.Value s, profile.Address <$> profile.Sample_Location s).

(** What a record contributes to its sample: its count and duration and the
    program counters of its stack. *)
Definition recordSignature (r : Record_) : list Z * list Z :=
  ([ int64_of_uint64 (n r); time r ], trace.PC <$> stk r).

(** The fields of a profile that [buildProfile] sets once. *)
Definition metadata (q : profile.Profile)
  : profile.ValueType * Z * list profile.ValueType :=
  (profile.PeriodType q, profile.Period q, profile.SampleType q).

(** Two goroutine tables with the same goroutines in different orders. *)
Definition tableA (_ : list trace.Event) : list trace.GDesc :=
  [trace.mkGDesc 1 2748; trace.mkGDesc 2 17; trace.mkGDesc 3 2748].

Definition tableB (_ : list trace.Event) : list trace.GDesc :=
  [trace.mkGDesc 3 2748; trace.mkGDesc 1 2748; trace.mkGDesc 2 17].

(** Three network-block events of goroutines 1, 2 and 3. *)
Definition threeEvents : list trace.Event :=
  [ netBlock 1 1000 1100 42 [sampleFrame];
    netBlock 2 2000 2150 42 [sampleFrame];
    netBlock 3 3000 3007 43 [otherFrame] ].

(** A request in which every step succeeds, with temporary file
    [/tmp/block7]. *)
Definition goodRender : Outcome :=
  mkOutcome "" (inr "/tmp/block7") None None None true "" None.

(** The goroutine filter returns an error: the identifier is not empty and
    either does not parse or names a program counter at which no goroutine of
    the table was created. *)
Definition filterFails
    (analyzeGoroutines : list trace.Event → list trace.GDesc)
    (id : string) (events : list trace.Event) : Prop :=
  id ≠ ""
  ∧ match ParseUint id with
    | None => True
    | Some pc => ∀ g, g ∈ analyzeGoroutines events → trace.GPC g ≠ pc
    end.

(** The (file, name) pair of a function entry. *)
Definition fnPair (fn : profile.Function) : string * string :=
  (profile.Filename fn, profile.Name fn).

(** ** The handlers registered by [init] *)

(** [o] with the result [e] of the call [prof(w, id)]. *)
Definition withProfErr (o : Outcome) (e : option error) : Outcome :=
  mkOutcome (raw o) (tempFile o) e (flushErr o) (closeErr o)
    (pprofWroteOutput o) (pprofOutput o) (pprofErr o).

(** What [prof(w, id)] returns for the pipeline of category [c]: the error of
    the pipeline, or the result [writeErr] of [buildProfile(prof).Write(w)]. *)
Definition profError (c : Category)
    (parseEvents : error + list trace.Event)
    (analyzeGoroutines : list trace.Event → list trace.GDesc)
    (id : string) (writeErr : option error) : option error :=
  match pprof c parseEvents analyzeGoroutines id with
  | inl err => Some err
  | inr _ => writeErr
  end.

(** The handler [serveSVGProfile(prof)] that [init] registers for the
    pipeline of category [c], on a request with form value [id]. *)
Definition serveCategory (c : Category)
    (parseEvents : error + list trace.Event)
    (analyzeGoroutines : list trace.Event → list trace.GDesc)
    (id : string) (writeErr : option error)
    (o : Outcome) (fs : gset string) : gset string * Response :=
  serveSVGProfile
    (withProfErr o (profError c parseEvents analyzeGoroutines id writeErr)) fs.

(** * Properties *)

(** ** Wrap-around arithmetic *)

(** A decidable relation holds between any two members of a list when a
    computation says so. *)
Lemma pairwise_decide {A} (P : A → A → Prop) `{∀ x y, Decision (P x y)}
    (l : list A) :
  bool_decide (Forall (λ x, Forall (P x) l) l) = true →
  ∀ x y, x ∈ l → y ∈ l → P x y.
Proof.
  intros Hb x y Hx Hy. apply bool_decide_eq_true_1 in Hb.
  rewrite Forall_forall in Hb. specialize (Hb x Hx).
  rewrite Forall_forall in Hb. by apply Hb.
Qed.

Lemma wrapU64_idemp_succ (a : Z) : wrapU64 (wrapU64 a + 1) = wrapU64 (a + 1).
Proof. unfold wrapU64. apply Zplus_mod_idemp_l. Qed.

Lemma wrapI64_add_l (a d : Z) : wrapI64 (wrapI64 a + d) = wrapI64 (a + d).
Proof.
  unfold wrapI64. f_equal.
  replace ((a + 2 ^ 63) mod 2 ^ 64 - 2 ^ 63 + d + 2 ^ 63)
    with ((a + 2 ^ 63) mod 2 ^ 64 + d) by ring.
  rewrite Zplus_mod_idemp_l. f_equal. ring.
Qed.

Lemma wrapI64_add_r (a d : Z) : wrapI64 (a + wrapI64 d) = wrapI64 (a + d).
Proof. rewrite (Z.add_comm a), wrapI64_add_l. f_equal. ring. Qed.

Lemma wrapU64_small (a : Z) : 0 ≤ a < 2 ^ 64 → wrapU64 a = a.
Proof. intros H. unfold wrapU64. by apply Z.mod_small. Qed.

Lemma wrapI64_small (a : Z) : - 2 ^ 63 ≤ a < 2 ^ 63 → wrapI64 a = a.
Proof. intros H. unfold wrapI64. rewrite Z.mod_small; lia. Qed.

Lemma int64_of_uint64_small (a : Z) : 0 ≤ a < 2 ^ 63 → int64_of_uint64 a = a.
Proof. intros H. apply wrapI64_small. lia. Qed.

(** ** The aggregators as one fold *)

Lemma aggregate_fold c goroutines events :
  aggregate c goroutines events
  = fold_left (loopBody (skipType c) goroutines) events ∅.
Proof. by destruct c. Qed.

Lemma aggregate_snoc c goroutines events ev :
  aggregate c goroutines (events ++ [ev])
  = loopBody (skipType c) goroutines (aggregate c goroutines events) ev.
Proof. rewrite !aggregate_fold. by rewrite fold_left_app. Qed.

Lemma loopBody_skip c goroutines prof ev :
  qualifies c goroutines ev = false →
  loopBody (skipType c) goroutines prof ev = prof.
Proof.
  unfold qualifies, loopBody. intros H.
  destruct (skipType c _); [done|]. destruct (trace.Link ev); [|done].
  destruct (bool_decide (trace.StkID ev = 0)); [done|].
  destruct (bool_decide (length _ = 0%nat)); [done|].
  destruct (filteredOut _ _); [done|]. done.
Qed.

Lemma loopBody_add c goroutines prof ev :
  qualifies c goroutines ev = true →
  loopBody (skipType c) goroutines prof ev
  = <[ trace.StkID ev :=
         {| stk := trace.Stk ev;
            n := wrapU64 (n (default zeroRecord (prof !! trace.StkID ev)) + 1);
            time := wrapI64 (time (default zeroRecord (prof !! trace.StkID ev))
                             + duration ev) |} ]> prof.
Proof.
  unfold qualifies, loopBody, duration, addEvent. intros H.
  destruct (skipType c _); [done|]. destruct (trace.Link ev); [|done].
  destruct (bool_decide (trace.StkID ev = 0)); [done|].
  destruct (bool_decide (length _ = 0%nat)); [done|].
  destruct (filteredOut _ _); [done|]. done.
Qed.

Lemma sumZ_app (l1 l2 : list Z) : sumZ (l1 ++ l2) = sumZ l1 + sumZ l2.
Proof. unfold sumZ. induction l1 as [|x l1 IH]; simpl; [done|]. rewrite IH. ring. Qed.

Lemma sumZ_perm (l1 l2 : list Z) : l1 ≡ₚ l2 → sumZ l1 = sumZ l2.
Proof.
  unfold sumZ. induction 1 as [|x l1 l2 _ IH| |]; simpl; try lia.
Qed.

Lemma summary_snoc (qs : list trace.Event) (ev : trace.Event) :
  summary (qs ++ [ev])
  = Some {| stk := trace.Stk ev;
            n := wrapU64 (n (default zeroRecord (summary qs)) + 1);
            time := wrapI64 (time (default zeroRecord (summary qs))
                             + duration ev) |}.
Proof.
  unfold summary at 1. rewrite last_snoc. f_equal.
  rewrite length_app, fmap_app, sumZ_app. simpl.
  unfold summary. destruct (last qs) as [e|] eqn:Hl; simpl.
  - rewrite wrapU64_idemp_succ, wrapI64_add_l. f_equal; f_equal; lia.
  - apply last_None in Hl as ->. simpl. f_equal; f_equal; lia.
Qed.

(** The record of every stack identifier, after any event sequence. *)
Lemma aggregate_lookup c goroutines events id :
  aggregate c goroutines events !! id
  = summary (qualifying c goroutines id events).
Proof.
  induction events as [|ev events IH] using rev_ind.
  - by destruct c.
  - rewrite aggregate_snoc. unfold qualifying in *. rewrite filter_app.
    destruct (qualifies c goroutines ev) eqn:Hq.
    + rewrite (loopBody_add _ _ _ _ Hq).
      destruct (decide (trace.StkID ev = id)) as [<-|Hne].
      * rewrite lookup_insert_eq.
        rewrite (filter_cons_True _ ev []) by done.
        rewrite filter_nil, summary_snoc. by rewrite IH.
      * rewrite lookup_insert_ne by done.
        rewrite (filter_cons_False _ ev []) by (intros [_ ?]; done).
        by rewrite filter_nil, app_nil_r.
    + rewrite (loopBody_skip _ _ _ _ Hq).
      rewrite (filter_cons_False _ ev []) by (intros [? _]; congruence).
      by rewrite filter_nil, app_nil_r.
Qed.

Lemma structural_failure_not_qualifies c goroutines ev :
  trace.Link ev = None ∨ trace.StkID ev = 0 ∨ trace.Stk ev = [] →
  qualifies c goroutines ev = false.
Proof.
  unfold qualifies. intros [H|[H|H]]; rewrite H; simpl.
  - by rewrite andb_false_r.
  - by rewrite andb_false_r.
  - by rewrite andb_false_r.
Qed.

Lemma aggregate_filter c goroutines events :
  aggregate c goroutines events
  = aggregate c goroutines
      (filter (λ ev, qualifies c goroutines ev = true) events).
Proof.
  induction events as [|ev events IH] using rev_ind; [done|].
  rewrite filter_app, aggregate_snoc.
  destruct (qualifies c goroutines ev) eqn:Hq.
  - rewrite (filter_cons_True _ ev []) by done.
    rewrite filter_nil, aggregate_snoc. by rewrite <- IH.
  - rewrite (filter_cons_False _ ev []) by congruence.
    rewrite filter_nil, app_nil_r, <- IH. by apply loopBody_skip.
Qed.

Lemma summary_counts_perm (qs1 qs2 : list trace.Event) :
  qs1 ≡ₚ qs2 → counts <$> summary qs1 = counts <$> summary qs2.
Proof.
  intros Hp. unfold summary.
  destruct (last qs1) as [e1|] eqn:H1, (last qs2) as [e2|] eqn:H2; simpl.
  - unfold counts; simpl. do 2 f_equal.
    + by rewrite Hp.
    + f_equal. apply sumZ_perm. by rewrite Hp.
  - apply last_None in H2. subst. apply Permutation_nil_r in Hp. by subst.
  - apply last_None in H1. subst. symmetry in Hp.
    apply Permutation_nil_r in Hp. by subst.
  - done.
Qed.

Lemma aggregate_counts_perm c goroutines (evs1 evs2 : list trace.Event) :
  evs1 ≡ₚ evs2 →
  counts <$> aggregate c goroutines evs1 = counts <$> aggregate c goroutines evs2.
Proof.
  intros Hp. apply map_eq. intros id.
  rewrite !lookup_fmap, !aggregate_lookup.
  apply summary_counts_perm. unfold qualifying. by rewrite Hp.
Qed.

Lemma triples_counts (prof : gmap Z Record_) :
  triples prof
  ≡ₚ (λ kc, (kc.1, kc.2.1, kc.2.2)) <$> map_to_list (counts <$> prof).
Proof.
  unfold triples. rewrite map_to_list_fmap, <- list_fmap_compose.
  erewrite list_fmap_ext; [reflexivity|]. by intros i [k r] _.
Qed.

(** ** Claims on the stack aggregators *)

(** C1. In each of the four categories, an event whose link is nil, whose
    stack identifier is zero or whose stack is empty leaves every record map
    as it is (no record created, no count or duration changed), and the
    aggregation of a sequence is the aggregation of the sequence without
    it. *)
Theorem structural_failure_never_contributes
    (c : Category) (goroutines : option (gset Z)) (ev : trace.Event) :
  trace.Link ev = None ∨ trace.StkID ev = 0 ∨ trace.Stk ev = [] →
  (∀ prof, loopBody (skipType c) goroutines prof ev = prof)
  ∧ (∀ evs1 evs2,
        aggregate c goroutines (evs1 ++ ev :: evs2)
        = aggregate c goroutines (evs1 ++ evs2)).
Proof.
  intros H. apply (structural_failure_not_qualifies c goroutines) in H.
  split.
  - intros prof. by apply loopBody_skip.
  - intros evs1 evs2. rewrite !aggregate_fold, !fold_left_app. simpl.
    by rewrite (loopBody_skip _ _ _ _ H).
Qed.

Lemma structural_failure_never_contributes_witness :
  trace.StkID (netBlock 1 5 9 0 [sampleFrame]) = 0
  ∧ aggregate NetworkWait None
      ([netBlock 1 0 7 3 [sampleFrame]]
         ++ netBlock 1 5 9 0 [sampleFrame] :: [netBlock 2 1 4 3 [sampleFrame]])
    = aggregate NetworkWait None
        ([netBlock 1 0 7 3 [sampleFrame]] ++ [netBlock 2 1 4 3 [sampleFrame]]).
Proof.
  split; [reflexivity|].
  apply (structural_failure_never_contributes NetworkWait None
           (netBlock 1 5 9 0 [sampleFrame])).
  right; left; reflexivity.
Defined.

(** C7. In each of the four categories and under any goroutine filter,
    aggregating a permutation of an event sequence gives every stack
    identifier the same count and cumulative duration, hence the same
    multiset of (identifier, count, duration) triples. *)
Theorem aggregate_permutation_invariant
    (c : Category) (goroutines : option (gset Z))
    (evs1 evs2 : list trace.Event) :
  evs1 ≡ₚ evs2 →
  triples (aggregate c goroutines evs1) ≡ₚ triples (aggregate c goroutines evs2).
Proof.
  intros Hp. rewrite !triples_counts.
  by rewrite (aggregate_counts_perm c goroutines evs1 evs2 Hp).
Qed.

Lemma aggregate_permutation_invariant_witness :
  [netBlock 1 0 7 3 [sampleFrame]; netBlock 2 1 4 5 [otherFrame]]
    ≡ₚ [netBlock 2 1 4 5 [otherFrame]; netBlock 1 0 7 3 [sampleFrame]]
  ∧ triples (aggregate NetworkWait None
               [netBlock 1 0 7 3 [sampleFrame]; netBlock 2 1 4 5 [otherFrame]])
    ≡ₚ triples (aggregate NetworkWait None
                 [netBlock 2 1 4 5 [otherFrame]; netBlock 1 0 7 3 [sampleFrame]]).
Proof.
  assert (H : [netBlock 1 0 7 3 [sampleFrame]; netBlock 2 1 4 5 [otherFrame]]
              ≡ₚ [netBlock 2 1 4 5 [otherFrame]; netBlock 1 0 7 3 [sampleFrame]])
    by apply perm_swap.
  split; [exact H|].
  exact (aggregate_permutation_invariant NetworkWait None _ _ H).
Defined.

(** ** First-seen order *)

Section first_seen.
Context {A K : Type} `{Countable K} (key : A → K).

Lemma firstSeenBy_snoc l x :
  firstSeenBy key (l ++ [x]) = seeNextBy key (firstSeenBy key l) x.
Proof. unfold firstSeenBy. by rewrite fold_left_app. Qed.

Lemma firstSeenBy_keys l k : k ∈ key <$> firstSeenBy key l ↔ k ∈ key <$> l.
Proof.
  induction l as [|x l IH] using rev_ind; [done|].
  rewrite firstSeenBy_snoc. unfold seeNextBy.
  rewrite (fmap_app key l), (elem_of_app (key <$> l)), <- IH.
  destruct (decide _) as [Hin|Hout].
  - rewrite list_fmap_singleton, list_elem_of_singleton.
    split; [tauto|]. intros [?| ->]; done.
  - by rewrite fmap_app, elem_of_app.
Qed.

Lemma firstSeenBy_NoDup l : NoDup (key <$> firstSeenBy key l).
Proof.
  induction l as [|x l IH] using rev_ind; [constructor|].
  rewrite firstSeenBy_snoc. unfold seeNextBy.
  destruct (decide _) as [Hin|Hout]; [done|].
  rewrite fmap_app. apply NoDup_app. split_and!; [done| |].
  - intros k Hk. rewrite list_fmap_singleton, list_elem_of_singleton.
    by intros ->.
  - rewrite list_fmap_singleton. apply NoDup_singleton.
Qed.

Lemma firstSeenBy_elem l x : x ∈ firstSeenBy key l → x ∈ l.
Proof.
  induction l as [|y l IH] using rev_ind; [done|].
  rewrite firstSeenBy_snoc. unfold seeNextBy.
  destruct (decide _); rewrite ?elem_of_app; [tauto|].
  intros [?|?]; [left; tauto | by right].
Qed.

Lemma firstSeenBy_length l : length (firstSeenBy key l) = distinct key l.
Proof.
  unfold distinct.
  replace (list_to_set (key <$> l) : gset K)
    with (list_to_set (key <$> firstSeenBy key l) : gset K).
  - rewrite size_list_to_set by apply firstSeenBy_NoDup.
    by rewrite length_fmap.
  - apply set_eq. intros k. rewrite !elem_of_list_to_set.
    apply firstSeenBy_keys.
Qed.

Lemma distinct_equiv l1 l2 :
  (∀ k, k ∈ key <$> l1 ↔ k ∈ key <$> l2) → distinct key l1 = distinct key l2.
Proof.
  intros Hk. unfold distinct. f_equal. apply set_eq. intros k.
  by rewrite !elem_of_list_to_set.
Qed.
End first_seen.

(** ** The tables of the profile builder *)

Lemma fnKey_imap_mkFn (l : list trace.Frame) :
  fnKey <$> imap mkFn l = funcKey <$> l.
Proof.
  apply list_eq. intros i.
  rewrite !list_lookup_fmap, list_lookup_imap.
  by destruct (l !! i).
Qed.

Lemma locs_lookup_None frames b pc :
  Tables frames b →
  locs b !! pc = None ↔ pc ∉ trace.PC <$> locFrames frames.
Proof.
  intros HT. rewrite <- (T_addr _ _ HT), list_elem_of_fmap.
  rewrite eq_None_not_Some. unfold is_Some.
  split; intros Hn.
  - intros (loc & -> & Hin). apply Hn. exists loc.
    by apply (T_locs _ _ HT).
  - intros [loc Hl]. apply (T_locs _ _ HT) in Hl as [Hin <-].
    apply Hn. by exists loc.
Qed.

Lemma funcs_lookup_None frames b key :
  Tables frames b →
  funcs b !! key = None ↔ key ∉ funcKey <$> fnFrames frames.
Proof.
  intros HT. rewrite <- fnKey_imap_mkFn, <- (T_fn _ _ HT), list_elem_of_fmap.
  rewrite eq_None_not_Some. unfold is_Some.
  split; intros Hn.
  - intros (fn & -> & Hin). apply Hn. exists fn.
    by apply (T_funcs _ _ HT).
  - intros [fn Hl]. apply (T_funcs _ _ HT) in Hl as [Hin <-].
    apply Hn. by exists fn.
Qed.

Lemma Tables_init : Tables [] (mkBuilder emptyProfile ∅ ∅).
Proof.
  split; simpl; try done.
  - intros pc loc. rewrite lookup_empty, elem_of_nil.
    split; [done | by intros [[] _]].
  - intros key fn. rewrite lookup_empty, elem_of_nil.
    split; [done | by intros [[] _]].
Qed.

(** A frame whose program counter is in the table changes nothing. *)
Lemma internLocation_seen frames b frame loc :
  Tables frames b →
  locs b !! trace.PC frame = Some loc →
  internLocation b frame = (loc, b) ∧ Tables (frames ++ [frame]) b.
Proof.
  intros HT Hl. split.
  - unfold internLocation. by rewrite Hl.
  - assert (Hin : trace.PC frame ∈ trace.PC <$> locFrames frames).
    { destruct (decide (trace.PC frame ∈ trace.PC <$> locFrames frames))
        as [|Hn]; [done|].
      apply (locs_lookup_None _ _ _ HT) in Hn. congruence. }
    assert (Heq : locFrames (frames ++ [frame]) = locFrames frames).
    { unfold locFrames. rewrite firstSeenBy_snoc. unfold seeNextBy.
      by rewrite decide_True. }
    destruct HT as [H1 H2 H3 H4 H5].
    split; unfold fnFrames; rewrite ?Heq; done.
Qed.

(** [internFunction] on a frame that introduces a program counter. *)
Lemma internFunction_new frames b frame :
  Tables frames b →
  locs b !! trace.PC frame = None →
  let fb := internFunction b frame in
  profile.p_Function (p fb.2) = imap mkFn (fnFrames (frames ++ [frame]))
  ∧ (∀ key fn, funcs fb.2 !! key = Some fn
               ↔ fn ∈ profile.p_Function (p fb.2) ∧ fnKey fn = key)
  ∧ fb.1 ∈ profile.p_Function (p fb.2)
  ∧ fnKey fb.1 = funcKey frame
  ∧ (∀ fn, fn ∈ profile.p_Function (p b) → fn ∈ profile.p_Function (p fb.2))
  ∧ profile.p_Location (p fb.2) = profile.p_Location (p b)
  ∧ profile.p_Sample (p fb.2) = profile.p_Sample (p b)
  ∧ locs fb.2 = locs b.
Proof.
  intros HT Hl.
  assert (Hloc : locFrames (frames ++ [frame]) = locFrames frames ++ [frame]).
  { unfold locFrames. rewrite firstSeenBy_snoc. unfold seeNextBy.
    rewrite decide_False; [done|]. by apply (locs_lookup_None _ _ _ HT). }
  assert (Hfn : fnFrames (frames ++ [frame])
                = seeNextBy funcKey (fnFrames frames) frame).
  { unfold fnFrames. by rewrite Hloc, firstSeenBy_snoc. }
  unfold internFunction. destruct (funcs b !! funcKey frame) as [fn|] eqn:Hf; simpl.
  - assert (Hin : funcKey frame ∈ funcKey <$> fnFrames frames).
    { destruct (decide (funcKey frame ∈ funcKey <$> fnFrames frames))
        as [|Hn]; [done|].
      apply (funcs_lookup_None _ _ _ HT) in Hn. congruence. }
    rewrite Hfn. unfold seeNextBy. rewrite decide_True by done.
    apply (T_funcs _ _ HT) in Hf as Hf'. destruct Hf' as [Hfin Hfk].
    split_and!; try done.
    + apply (T_fn _ _ HT).
    + apply (T_funcs _ _ HT).
  - assert (Hout : funcKey frame ∉ funcKey <$> fnFrames frames)
      by by apply (funcs_lookup_None _ _ _ HT).
    rewrite Hfn. unfold seeNextBy. rewrite decide_False by done.
    rewrite imap_app. simpl. rewrite <- (T_fn _ _ HT).
    assert (Hlen : length (fnFrames frames)
                   = length (profile.p_Function (p b))).
    { by rewrite (T_fn _ _ HT), length_imap. }
    rewrite Hlen, Nat.add_0_r. fold (mkFn (length (profile.p_Function (p b))) frame).
    split_and!; try done.
    + intros key fn. rewrite elem_of_app, list_elem_of_singleton.
      destruct (decide (key = funcKey frame)) as [->|Hne].
      * rewrite lookup_insert_eq. split.
        -- intros [= <-]. split; [by right|done].
        -- intros [[Hin| ->] Hk]; [|done].
           assert (funcs b !! funcKey frame = Some fn)
             by by apply (T_funcs _ _ HT).
           congruence.
      * rewrite lookup_insert_ne by done. rewrite (T_funcs _ _ HT).
        split.
        -- intros [? ?]. split; [by left|done].
        -- intros [[Hin| ->] Hk]; [done|]. by destruct Hne.
    + rewrite elem_of_app, list_elem_of_singleton. by right.
    + intros fn Hin. rewrite elem_of_app. by left.
Qed.

(** What one pass through the inner loop's body guarantees. *)
Lemma internLocation_step frames b frame :
  Tables frames b →
  let lb := internLocation b frame in
  Tables (frames ++ [frame]) lb.2
  ∧ lb.1 ∈ profile.p_Location (p lb.2)
  ∧ profile.Address lb.1 = trace.PC frame
  ∧ profile.p_Location (p b) `prefix_of` profile.p_Location (p lb.2)
  ∧ profile.p_Sample (p lb.2) = profile.p_Sample (p b).
Proof.
  intros HT. destruct (locs b !! trace.PC frame) as [loc|] eqn:Hl.
  - destruct (internLocation_seen _ _ _ _ HT Hl) as [-> HT']. simpl.
    apply (T_locs _ _ HT) in Hl as [Hin Ha]. by split_and!.
  - pose proof (internFunction_new _ _ _ HT Hl) as Hfn.
    unfold internLocation. rewrite Hl.
    destruct (internFunction b frame) as [fn b1]. simpl in Hfn.
    destruct Hfn as (Hfns & Hfuncs & Hfin & Hfk & Hmono & Hlocs & Hsamp & Hlm).
    simpl. rewrite Hlocs, Hlm.
    assert (Hloc : locFrames (frames ++ [frame]) = locFrames frames ++ [frame]).
    { unfold locFrames. rewrite firstSeenBy_snoc. unfold seeNextBy.
      rewrite decide_False; [done|]. by apply (locs_lookup_None _ _ _ HT). }
    assert (Hlen : length (profile.p_Location (p b))
                   = length (locFrames frames)).
    { rewrite <- (length_fmap profile.Address), (T_addr _ _ HT).
      by rewrite length_fmap. }
    split_and!; try done.
    + split; simpl; rewrite ?Hlocs, ?Hlm.
      * rewrite Hloc, !fmap_app, (T_addr _ _ HT). done.
      * intros i loc Hi. rewrite Hloc.
        apply lookup_app_Some in Hi as [Hi|[Hge Hi]].
        -- destruct (T_loc _ _ HT _ _ Hi) as (fr & f & Hfr & -> & Hf & Hk).
           exists fr, f. split_and!; try done.
           ++ by apply lookup_app_l_Some.
           ++ by apply Hmono.
        -- apply list_lookup_singleton_Some in Hi as [Hz <-].
           assert (i = length (profile.p_Location (p b))) as -> by lia.
           exists frame, fn. split_and!; try done.
           rewrite Hlen. rewrite lookup_app_r by lia.
           by rewrite Nat.sub_diag.
      * intros pc loc. rewrite elem_of_app, list_elem_of_singleton.
        destruct (decide (pc = trace.PC frame)) as [->|Hne].
        -- rewrite lookup_insert_eq. split.
           ++ intros [= <-]. split; [by right|done].
           ++ intros [[Hin| ->] Hk]; [|done].
              assert (locs b !! trace.PC frame = Some loc)
                by by apply (T_locs _ _ HT).
              congruence.
        -- rewrite lookup_insert_ne by done. rewrite (T_locs _ _ HT).
           split.
           ++ intros [? ?]. split; [by left|done].
           ++ intros [[Hin| ->] Hk]; [done|]. by destruct Hne.
      * done.
      * done.
    + rewrite elem_of_app, list_elem_of_singleton. by right.
    + by apply prefix_app_r.
Qed.

Lemma mirrorsStack_prefix l1 l2 stack sloc :
  l1 `prefix_of` l2 → mirrorsStack l1 stack sloc → mirrorsStack l2 stack sloc.
Proof.
  intros [k ->] Hm. eapply Forall2_impl; [exact Hm|].
  intros frame loc [Hin Ha]. split; [|done]. rewrite elem_of_app. by left.
Qed.

(** The inner loop, over the stack of one record. *)
Lemma addFrame_fold stack : ∀ frames b sloc,
  Tables frames b →
  let r := fold_left addFrame stack (b, sloc) in
  Tables (frames ++ stack) r.1
  ∧ profile.p_Location (p b) `prefix_of` profile.p_Location (p r.1)
  ∧ profile.p_Sample (p r.1) = profile.p_Sample (p b)
  ∧ ∃ new, r.2 = sloc ++ new
           ∧ mirrorsStack (profile.p_Location (p r.1)) stack new.
Proof.
  induction stack as [|frame stack IH]; intros frames b sloc HT; simpl.
  - rewrite app_nil_r. split_and!; try done.
    exists []. rewrite app_nil_r. split; [done|constructor].
  - pose proof (internLocation_step _ _ frame HT) as Hstep.
    assert (Heq : addFrame (b, sloc) frame
                  = ((internLocation b frame).2,
                     sloc ++ [(internLocation b frame).1])).
    { unfold addFrame. simpl. by destruct (internLocation b frame). }
    rewrite Heq. clear Heq.
    destruct (internLocation b frame) as [loc b1]. simpl in Hstep. simpl.
    destruct Hstep as (HT1 & Hin & Ha & Hpre & Hs).
    destruct (IH _ _ (sloc ++ [loc]) HT1) as (HT2 & Hpre2 & Hs2 & new & Hnew & Hm).
    rewrite <- app_assoc in HT2. simpl in HT2.
    split_and!; try done.
    + by etrans.
    + congruence.
    + exists (loc :: new). split.
      * rewrite Hnew, <- app_assoc. done.
      * constructor; [|done]. split; [|done].
        destruct Hpre2 as [k ->]. rewrite elem_of_app. by left.
Qed.

Lemma Tables_appendSample frames b s :
  Tables frames b →
  Tables frames (mkBuilder (appendSample (p b) s) (locs b) (funcs b)).
Proof. intros [H1 H2 H3 H4 H5]. by split. Qed.

(** The outer loop. *)
Lemma addRecord_fold recs :
  let b := fold_left addRecord recs (mkBuilder emptyProfile ∅ ∅) in
  Tables (allFrames recs) b ∧ samplesOf recs (p b).
Proof.
  induction recs as [|rec recs IH] using rev_ind; simpl.
  - split; [apply Tables_init | constructor].
  - rewrite fold_left_app. simpl.
    destruct IH as [HT HS].
    set (b := fold_left addRecord recs (mkBuilder emptyProfile ∅ ∅)) in *.
    pose proof (addFrame_fold (stk rec) _ _ [] HT) as Hin.
    unfold addRecord.
    destruct (fold_left addFrame (stk rec) (b, [])) as [b1 sloc].
    simpl in Hin. destruct Hin as (HT1 & Hpre & Hs & new & -> & Hm).
    unfold allFrames. rewrite fmap_app, join_app. simpl. rewrite app_nil_r.
    split.
    + by apply Tables_appendSample.
    + unfold samplesOf. simpl. rewrite Hs. apply Forall2_app.
      * eapply Forall2_impl; [exact HS|]. intros r s [Hv Hl].
        split; [done|]. by eapply mirrorsStack_prefix.
      * constructor; [|constructor]. done.
Qed.

Lemma buildProfileFrom_tables recs :
  ∃ b, buildProfileFrom recs = p b
       ∧ Tables (allFrames recs) b ∧ samplesOf recs (p b).
Proof.
  exists (fold_left addRecord recs (mkBuilder emptyProfile ∅ ∅)).
  split; [done | apply addRecord_fold].
Qed.

(** C2. When exactly two events of a sequence qualify, both with stack
    identifier 42 and with durations of 100ns and 150ns, and no goroutine
    filter is active (the identifier is empty), the aggregation holds the
    single record of identifier 42, with count 2 and cumulative duration
    250ns, and the profile built from it, in whichever order the map is
    visited, has exactly one sample, with values [2, 250]. *)
Theorem two_events_one_record
    (c : Category) (events : list trace.Event) (e1 e2 l1 l2 : trace.Event) :
  filter (λ ev, qualifies c None ev = true) events = [e1; e2] →
  trace.StkID e1 = 42 → trace.StkID e2 = 42 →
  trace.Link e1 = Some l1 → trace.Ts l1 - trace.Ts e1 = 100 →
  trace.Link e2 = Some l2 → trace.Ts l2 - trace.Ts e2 = 150 →
  aggregate c None events = {[ 42 := mkRecord (trace.Stk e2) 2 250 ]}
  ∧ (∀ analyzeGoroutines,
       pprof c (inr events) analyzeGoroutines ""
       = inr {[ 42 := mkRecord (trace.Stk e2) 2 250 ]})
  ∧ ∀ recs, rangeOrder (aggregate c None events) recs →
      ∃ sloc, profile.p_Sample (buildProfileFrom recs)
              = [ profile.mkSample [2; 250] sloc ].
Proof.
  intros Hf Hid1 Hid2 Hl1 Hd1 Hl2 Hd2.
  assert (Hq1 : qualifies c None e1 = true).
  { assert (H : e1 ∈ filter (λ ev, qualifies c None ev = true) events)
      by (rewrite Hf; left).
    by apply list_elem_of_filter in H as [? _]. }
  assert (Hq2 : qualifies c None e2 = true).
  { assert (H : e2 ∈ filter (λ ev, qualifies c None ev = true) events)
      by (rewrite Hf; right; left).
    by apply list_elem_of_filter in H as [? _]. }
  assert (Hagg : aggregate c None events
                 = {[ 42 := mkRecord (trace.Stk e2) 2 250 ]}).
  { rewrite aggregate_filter, Hf, aggregate_fold. simpl.
    rewrite (loopBody_add _ _ _ _ Hq1), (loopBody_add _ _ _ _ Hq2).
    rewrite Hid1, Hid2, lookup_insert_eq, lookup_empty, insert_insert_eq.
    unfold duration. rewrite Hl1, Hl2, Hd1, Hd2. simpl.
    by rewrite insert_empty. }
  split_and!; [done| |].
  { intros ag. rewrite <- Hagg. by destruct c. }
  intros recs Hr. unfold rangeOrder in Hr.
  rewrite Hagg, map_to_list_singleton in Hr. simpl in Hr.
  apply Permutation_singleton_r in Hr as ->.
  destruct (buildProfileFrom_tables [mkRecord (trace.Stk e2) 2 250])
    as (b & -> & _ & HS).
  unfold samplesOf in HS. apply Forall2_cons_inv_l in HS
    as (s & rest & [Hv _] & Hrest & ->).
  apply Forall2_nil_inv_l in Hrest as ->.
  destruct s as [v sloc]. simpl in Hv. subst v. by exists sloc.
Qed.

Lemma two_events_one_record_witness :
  aggregate NetworkWait None
    [netBlock 1 1000 1100 42 [sampleFrame];
     netBlock 2 2000 2150 42 [sampleFrame]]
  = {[ 42 := mkRecord [sampleFrame] 2 250 ]}.
Proof.
  apply (two_events_one_record NetworkWait
           [netBlock 1 1000 1100 42 [sampleFrame];
            netBlock 2 2000 2150 42 [sampleFrame]]
           (netBlock 1 1000 1100 42 [sampleFrame])
           (netBlock 2 2000 2150 42 [sampleFrame])
           (endEvent 1100) (endEvent 2150));
    reflexivity.
Defined.

(** The loop body stores the stack of each qualifying event, so a record
    holds the stack of the last one with its identifier. *)
Lemma representative_stack_last_seen c goroutines events id :
  stk <$> aggregate c goroutines events !! id
  = trace.Stk <$> last (qualifying c goroutines id events).
Proof.
  rewrite aggregate_lookup. unfold summary.
  by destruct (last (qualifying c goroutines id events)).
Qed.

(** C4. A qualifying event has a link, and the loop body looks up the record
    of the event's stack identifier, or creates it from the zero record, and
    stores it back with the event's stack, its count incremented by 1 and the
    link's timestamp minus the event's added to its duration (the additions
    are those of [uint64] and [int64], exact while nothing overflows); every
    other record is left as it is.  When the qualifying events that share an
    identifier carry the same stack, as stacks sharing an identifier do, the
    record's stack after any event sequence is the stack of the first
    qualifying event with that identifier; its count and duration are the
    number and the summed durations of those events. *)
Theorem qualifying_event_updates_record
    (c : Category) (goroutines : option (gset Z)) :
  (∀ (prof : gmap Z Record_) (ev : trace.Event),
     qualifies c goroutines ev = true →
     let old := default zeroRecord (prof !! trace.StkID ev) in
     let prof' := loopBody (skipType c) goroutines prof ev in
     ∃ link,
       trace.Link ev = Some link
       ∧ prof' !! trace.StkID ev
         = Some {| stk := trace.Stk ev;
                   n := wrapU64 (n old + 1);
                   time := wrapI64 (time old
                                    + wrapI64 (trace.Ts link - trace.Ts ev)) |}
       ∧ (0 ≤ n old < 2 ^ 64 - 1 →
          n <$> prof' !! trace.StkID ev = Some (n old + 1))
       ∧ (- 2 ^ 63 ≤ trace.Ts link - trace.Ts ev < 2 ^ 63 →
          - 2 ^ 63 ≤ time old + (trace.Ts link - trace.Ts ev) < 2 ^ 63 →
          time <$> prof' !! trace.StkID ev
          = Some (time old + (trace.Ts link - trace.Ts ev)))
       ∧ ∀ id, id ≠ trace.StkID ev → prof' !! id = prof !! id)
  ∧ (∀ (events : list trace.Event) (id : Z),
       ((∀ e1 e2, e1 ∈ qualifying c goroutines id events →
                  e2 ∈ qualifying c goroutines id events →
                  trace.Stk e1 = trace.Stk e2) →
        stk <$> aggregate c goroutines events !! id
        = trace.Stk <$> head (qualifying c goroutines id events))
       ∧ aggregate c goroutines events !! id
         = summary (qualifying c goroutines id events)).
Proof.
  split.
  - intros prof ev Hq old prof'. subst prof'.
    rewrite (loopBody_add _ _ _ _ Hq). fold old.
    assert (Hl : ∃ link, trace.Link ev = Some link).
    { unfold qualifies in Hq.
      destruct (trace.Link ev) as [link|]; [by exists link|].
      simpl in Hq. by rewrite andb_false_r in Hq. }
    destruct Hl as [link Hl]. exists link.
    unfold duration. rewrite Hl, lookup_insert_eq. simpl.
    split_and!; try done.
    + intros Hn. by rewrite wrapU64_small by lia.
    + intros Hd Ht. by rewrite (wrapI64_small (_ - _)), wrapI64_small by lia.
    + intros id Hne. by rewrite lookup_insert_ne.
  - intros events id. split; [|apply aggregate_lookup].
    intros Hsame. rewrite representative_stack_last_seen.
    destruct (qualifying c goroutines id events) as [|e qs] eqn:Hqs; [done|].
    destruct (last (e :: qs)) as [e'|] eqn:Hlast.
    + simpl. f_equal. apply Hsame; [|left].
      by apply last_Some_elem_of.
    + by apply last_None in Hlast.
Qed.

Lemma qualifying_event_updates_record_witness :
  loopBody skipIO None {[ 42 := mkRecord [sampleFrame] 1 100 ]}
    (netBlock 2 2000 2150 42 [sampleFrame]) !! 42
  = Some (mkRecord [sampleFrame] 2 250)
  ∧ stk <$> aggregate NetworkWait None
              [netBlock 1 1000 1100 42 [sampleFrame];
               netBlock 2 2000 2150 42 [sampleFrame]] !! 42
    = trace.Stk
        <$> head (qualifying NetworkWait None 42
                    [netBlock 1 1000 1100 42 [sampleFrame];
                     netBlock 2 2000 2150 42 [sampleFrame]]).
Proof.
  split.
  - destruct (proj1 (qualifying_event_updates_record NetworkWait None)
                {[ 42 := mkRecord [sampleFrame] 1 100 ]}
                (netBlock 2 2000 2150 42 [sampleFrame]) eq_refl)
      as (link & Hl & Hr & _).
    injection Hl as <-. exact Hr.
  - apply (proj1 (proj2 (qualifying_event_updates_record NetworkWait None)
                    [netBlock 1 1000 1100 42 [sampleFrame];
                     netBlock 2 2000 2150 42 [sampleFrame]] 42)).
    apply (@pairwise_decide _ (λ e1 e2, trace.Stk e1 = trace.Stk e2)
             (λ e1 e2, decide (trace.Stk e1 = trace.Stk e2))).
    vm_compute. reflexivity.
Defined.

(** ** Claims on the profile builder *)

Lemma occurrences_absent {A} `{EqDecision A} (x : A) (l : list A) :
  x ∉ l → occurrences x l = 0%nat.
Proof.
  unfold occurrences. induction l as [|y l IH]; intros Hx; [done|].
  apply not_elem_of_cons in Hx as [Hne Hx].
  rewrite filter_cons_False by congruence. by apply IH.
Qed.

Lemma occurrences_NoDup {A} `{EqDecision A} (x : A) (l : list A) :
  NoDup l → x ∈ l → occurrences x l = 1%nat.
Proof.
  unfold occurrences. induction 1 as [|y l Hy Hnd IH]; intros Hin.
  - by apply elem_of_nil in Hin.
  - destruct (decide (y = x)) as [->|Hne].
    + rewrite filter_cons_True by done. simpl. f_equal.
      by apply occurrences_absent.
    + rewrite filter_cons_False by done. apply IH.
      apply elem_of_cons in Hin as [->|Hin]; done.
Qed.

Lemma NoDup_by_index {A} (f : A → Z) (l : list A) :
  (∀ i x, l !! i = Some x → f x = Z.of_nat (i + 1)) → NoDup l.
Proof.
  intros Hid. apply NoDup_alt. intros i j x Hi Hj.
  apply Hid in Hi, Hj. lia.
Qed.

Section built.
Context (frames : list trace.Frame) (b : builder) (HT : Tables frames b).

Lemma Location_ID_index i loc :
  profile.p_Location (p b) !! i = Some loc →
  profile.Location_ID loc = Z.of_nat (i + 1).
Proof. intros Hi. by destruct (T_loc _ _ HT _ _ Hi) as (? & ? & _ & -> & _). Qed.

Lemma Function_ID_index i fn :
  profile.p_Function (p b) !! i = Some fn →
  profile.Function_ID fn = Z.of_nat (i + 1).
Proof.
  rewrite (T_fn _ _ HT), list_lookup_imap. intros Hi.
  destruct (fnFrames frames !! i); simpl in Hi; [|done].
  by injection Hi as <-.
Qed.

Lemma Location_NoDup : NoDup (profile.p_Location (p b)).
Proof. apply (NoDup_by_index profile.Location_ID), Location_ID_index. Qed.

Lemma Function_NoDup : NoDup (profile.p_Function (p b)).
Proof. apply (NoDup_by_index profile.Function_ID), Function_ID_index. Qed.


Lemma Line_Function_elem loc ln :
  loc ∈ profile.p_Location (p b) → ln ∈ profile.Location_Line loc →
  profile.Line_Function ln ∈ profile.p_Function (p b).
Proof.
  intros Hin Hln. apply list_elem_of_lookup in Hin as [i Hi].
  destruct (T_loc _ _ HT _ _ Hi) as (frame & fn & _ & -> & Hfn & _).
  simpl in Hln. apply list_elem_of_singleton in Hln as ->. done.
Qed.

Lemma Function_pairs :
  (λ fn, (profile.Filename fn, profile.Name fn)) <$> profile.p_Function (p b)
  = framePair <$> fnFrames frames.
Proof.
  rewrite (T_fn _ _ HT). apply list_eq. intros i.
  rewrite !list_lookup_fmap, list_lookup_imap.
  by destruct (fnFrames frames !! i).
Qed.

Lemma Location_length :
  length (profile.p_Location (p b)) = distinct trace.PC frames.
Proof.
  rewrite <- (length_fmap profile.Address), (T_addr _ _ HT), length_fmap.
  apply firstSeenBy_length.
Qed.

Lemma Function_length :
  length (profile.p_Function (p b)) = distinct funcKey (locFrames frames).
Proof.
  rewrite (T_fn _ _ HT), length_imap. apply firstSeenBy_length.
Qed.
End built.

Lemma rangeOrder_frames prof recs :
  rangeOrder prof recs → allFrames recs ≡ₚ framesOf prof.
Proof. unfold rangeOrder, framesOf, allFrames. by intros ->. Qed.

Lemma distinct_perm {A K} `{Countable K} (key : A → K) (l1 l2 : list A) :
  l1 ≡ₚ l2 → distinct key l1 = distinct key l2.
Proof. intros Hp. apply distinct_equiv. intros k. by rewrite Hp. Qed.

Example buildProfile_example :
  buildProfile twoFrameProf
  = profile.mkProfile (profile.mkValueType "trace" "count") 1
      [ profile.mkValueType "contentions" "count";
        profile.mkValueType "delay" "nanoseconds" ]
      [ profile.mkSample [3; 900]
          [ profile.mkLocation 1 4096
              [ profile.mkLine
                  (profile.mkFunction 1 "main.f" "main.f" "main.go") 10 ];
            profile.mkLocation 2 8192
              [ profile.mkLine
                  (profile.mkFunction 2 "main.g" "main.g" "main.go") 20 ];
            profile.mkLocation 1 4096
              [ profile.mkLine
                  (profile.mkFunction 1 "main.f" "main.f" "main.go") 10 ] ] ]
      [ profile.mkLocation 1 4096
          [ profile.mkLine
              (profile.mkFunction 1 "main.f" "main.f" "main.go") 10 ];
        profile.mkLocation 2 8192
          [ profile.mkLine
              (profile.mkFunction 2 "main.g" "main.g" "main.go") 20 ] ]
      [ profile.mkFunction 1 "main.f" "main.f" "main.go";
        profile.mkFunction 2 "main.g" "main.g" "main.go" ].
Proof. reflexivity. Qed.



(** C5. In every profile the builder produces, a location that a sample
    lists occurs exactly once in the location list, the function of a
    location's line occurs exactly once in the function list, the entry at
    position [k] (from 0) of either list has id [k + 1], and both lists are in
    first-seen order: the addresses are the program counters in the order
    the frames introduce them, and the functions are those of the frames
    that introduce a function key, in order. *)
Theorem profile_tables_invariant (prof : gmap Z Record_) (recs : list Record_) :
  rangeOrder prof recs →
  let q := buildProfileFrom recs in
  (∀ s loc, s ∈ profile.p_Sample q → loc ∈ profile.Sample_Location s →
            occurrences loc (profile.p_Location q) = 1%nat)
  ∧ (∀ loc ln, loc ∈ profile.p_Location q → ln ∈ profile.Location_Line loc →
               occurrences (profile.Line_Function ln) (profile.p_Function q)
               = 1%nat)
  ∧ (∀ k loc, profile.p_Location q !! k = Some loc →
              profile.Location_ID loc = Z.of_nat k + 1)
  ∧ (∀ k fn, profile.p_Function q !! k = Some fn →
             profile.Function_ID fn = Z.of_nat k + 1)
  ∧ profile.Address <$> profile.p_Location q
    = trace.PC <$> firstSeenBy trace.PC (allFrames recs)
  ∧ (λ fn, (profile.Filename fn, profile.Name fn)) <$> profile.p_Function q
    = framePair <$> fnFrames (allFrames recs).
Proof.
  intros _ q. subst q.
  destruct (buildProfileFrom_tables recs) as (b & -> & HT & HS).
  split_and!.
  - intros s loc Hs Hloc. apply occurrences_NoDup.
    + apply (Location_NoDup _ _ HT).
    + apply list_elem_of_lookup in Hs as [i Hi].
      destruct (Forall2_lookup_r _ _ _ _ _ HS Hi) as (rec & _ & _ & Hm).
      apply list_elem_of_lookup in Hloc as [j Hj].
      by destruct (Forall2_lookup_r _ _ _ _ _ Hm Hj) as (frame & _ & Hin & _).
  - intros loc ln Hloc Hln. apply occurrences_NoDup.
    + apply (Function_NoDup _ _ HT).
    + by apply (Line_Function_elem _ _ HT loc).
  - intros k loc Hk. rewrite (Location_ID_index _ _ HT _ _ Hk). lia.
  - intros k fn Hk. rewrite (Function_ID_index _ _ HT _ _ Hk). lia.
  - apply (T_addr _ _ HT).
  - apply (Function_pairs _ _ HT).
Qed.

Lemma profile_tables_invariant_witness :
  rangeOrder twoFrameProf [mkRecord [sampleFrame; otherFrame; sampleFrame] 3 900]
  ∧ profile.Address
      <$> profile.p_Location
            (buildProfileFrom
               [mkRecord [sampleFrame; otherFrame; sampleFrame] 3 900])
    = [4096; 8192].
Proof.
  assert (H : rangeOrder twoFrameProf
                [mkRecord [sampleFrame; otherFrame; sampleFrame] 3 900]).
  { unfold rangeOrder, twoFrameProf. by rewrite map_to_list_singleton. }
  split; [exact H|].
  destruct (profile_tables_invariant twoFrameProf _ H)
    as (_ & _ & _ & _ & Ha & _).
  exact Ha.
Defined.

Lemma firstSeenBy_ext {A K1 K2} `{Countable K1} `{Countable K2}
    (key1 : A → K1) (key2 : A → K2) (l : list A) :
  (∀ x y, x ∈ l → y ∈ l → key1 x = key1 y ↔ key2 x = key2 y) →
  firstSeenBy key1 l = firstSeenBy key2 l.
Proof.
  induction l as [|x l IH] using rev_ind; intros Hk; [done|].
  rewrite !firstSeenBy_snoc, <- IH.
  2:{ intros y z Hy Hz. apply Hk; rewrite elem_of_app; by left. }
  unfold seeNextBy.
  assert (Hx : x ∈ l ++ [x]) by (rewrite elem_of_app; right; left).
  assert (Hiff : key1 x ∈ key1 <$> firstSeenBy key1 l
                 ↔ key2 x ∈ key2 <$> firstSeenBy key1 l).
  { rewrite !list_elem_of_fmap. split; intros (y & Hy & Hin); exists y.
    - split; [|done]. apply Hk; [done| |done].
      apply firstSeenBy_elem in Hin. rewrite elem_of_app. by left.
    - split; [|done]. apply Hk; [done| |done].
      apply firstSeenBy_elem in Hin. rewrite elem_of_app. by left. }
  destruct (decide (key1 x ∈ _)) as [H1|H1], (decide (key2 x ∈ _)) as [H2|H2];
    tauto.
Qed.

Lemma distinct_ext {A K1 K2} `{Countable K1} `{Countable K2}
    (key1 : A → K1) (key2 : A → K2) (l : list A) :
  (∀ x y, x ∈ l → y ∈ l → key1 x = key1 y ↔ key2 x = key2 y) →
  distinct key1 l = distinct key2 l.
Proof.
  intros Hk. rewrite <- !firstSeenBy_length. f_equal. by apply firstSeenBy_ext.
Qed.

(** The same happens when two distinct pairs share their key. *)
Example sharedKey_one_function :
  length (profile.p_Function (buildProfileFrom [sharedKey])) = 1%nat
  ∧ distinct framePair (framesOf {[ 1 := sharedKey ]}) = 2%nat.
Proof. split; vm_compute; reflexivity. Qed.

(** The function count is not the number of distinct pairs: the map of the
    one record [sharedPC] gets one function entry for two distinct
    (file, function) pairs. *)
Lemma dedup_counts_claim_fails :
  rangeOrder {[ 1 := sharedPC ]} [sharedPC]
  ∧ length (profile.p_Function (buildProfileFrom [sharedPC])) = 1%nat
  ∧ distinct framePair (framesOf {[ 1 := sharedPC ]}) = 2%nat
  ∧ ¬ dedup_counts_claim.
Proof.
  assert (Hr : rangeOrder {[ 1 := sharedPC ]} [sharedPC]).
  { unfold rangeOrder. by rewrite map_to_list_singleton. }
  split_and!; [done | by vm_compute | by vm_compute |].
  intros H. destruct (H _ _ Hr) as [_ Hf]. vm_compute in Hf. discriminate Hf.
Qed.

(** C3 (amended). For every record map and every order in which it is
    visited, the number of locations is the number of distinct program
    counters across all frames of all record stacks; the number of functions
    is the number of distinct keys file+function among the frames that
    introduce a program counter; and it is the number of distinct
    (file, function) pairs across all frames when frames with equal program
    counters carry equal pairs and distinct pairs have distinct keys. *)
Theorem dedup_counts (prof : gmap Z Record_) (recs : list Record_) :
  rangeOrder prof recs →
  let q := buildProfileFrom recs in
  length (profile.p_Location q) = distinct trace.PC (framesOf prof)
  ∧ length (profile.p_Function q) = distinct funcKey (locFrames (allFrames recs))
  ∧ ((∀ f1 f2, f1 ∈ framesOf prof → f2 ∈ framesOf prof →
               trace.PC f1 = trace.PC f2 → framePair f1 = framePair f2) →
     (∀ f1 f2, f1 ∈ framesOf prof → f2 ∈ framesOf prof →
               funcKey f1 = funcKey f2 → framePair f1 = framePair f2) →
     length (profile.p_Function q) = distinct framePair (framesOf prof)).
Proof.
  intros Hr q. subst q.
  destruct (buildProfileFrom_tables recs) as (b & -> & HT & _).
  apply rangeOrder_frames in Hr.
  split_and!.
  - rewrite (Location_length _ _ HT). by apply distinct_perm.
  - apply (Function_length _ _ HT).
  - intros Hpc Hkey. rewrite (Function_length _ _ HT).
    assert (Hsub : ∀ f, f ∈ locFrames (allFrames recs) → f ∈ framesOf prof).
    { intros f Hf. apply firstSeenBy_elem in Hf. by rewrite <- Hr. }
    rewrite (distinct_ext funcKey framePair).
    2:{ intros x y Hx Hy. split.
        - apply Hkey; by apply Hsub.
        - unfold funcKey, framePair. by intros [= -> ->]. }
    rewrite <- (distinct_perm framePair _ _ Hr).
    apply distinct_equiv. intros k. rewrite !list_elem_of_fmap. split.
    + intros (f & -> & Hf). exists f. split; [done|].
      by apply firstSeenBy_elem in Hf.
    + intros (f & -> & Hf).
      assert (Hk : trace.PC f ∈ trace.PC <$> locFrames (allFrames recs)).
      { apply firstSeenBy_keys, list_elem_of_fmap. by exists f. }
      apply list_elem_of_fmap in Hk as (f' & Hpc' & Hf').
      exists f'. split; [|done].
      apply Hpc; [by rewrite <- Hr| |done].
      apply Hsub, Hf'.
Qed.

Lemma dedup_counts_witness :
  rangeOrder twoFrameProf [mkRecord [sampleFrame; otherFrame; sampleFrame] 3 900]
  ∧ length (profile.p_Function
              (buildProfileFrom
                 [mkRecord [sampleFrame; otherFrame; sampleFrame] 3 900]))
    = distinct framePair (framesOf twoFrameProf).
Proof.
  assert (H : rangeOrder twoFrameProf
                [mkRecord [sampleFrame; otherFrame; sampleFrame] 3 900]).
  { unfold rangeOrder, twoFrameProf. by rewrite map_to_list_singleton. }
  split; [exact H|].
  destruct (dedup_counts twoFrameProf _ H) as (_ & _ & Hf).
  apply Hf.
  - apply (pairwise_decide
             (λ f1 f2, trace.PC f1 = trace.PC f2 → framePair f1 = framePair f2)).
    vm_compute. reflexivity.
  - apply (pairwise_decide
             (λ f1 f2, funcKey f1 = funcKey f2 → framePair f1 = framePair f2)).
    vm_compute. reflexivity.
Defined.

(** ** strconv.ParseUint *)

Lemma digit_of_range c d : digit_of c = Some d → 0 ≤ d ≤ 9.
Proof.
  unfold digit_of. case_bool_decide; [|done]. intros [= <-]. lia.
Qed.

Lemma decimalFrom_ge s : ∀ acc, 0 ≤ acc → acc ≤ decimalFrom s acc.
Proof.
  induction s as [|c s IH]; intros acc Hacc; simpl; [lia|].
  destruct (digit_of c) as [d|] eqn:Hd; simpl.
  - apply digit_of_range in Hd. etrans; [|apply IH]; lia.
  - etrans; [|apply IH]; lia.
Qed.

Lemma parseDigits_spec s : ∀ acc, 0 ≤ acc ≤ maxUint64 →
  parseDigits s acc
  = if allDigits s && bool_decide (decimalFrom s acc ≤ maxUint64)
    then Some (decimalFrom s acc) else None.
Proof.
  assert (Hmax : maxUint64 = 18446744073709551615) by reflexivity.
  assert (Hcut : maxUint64 / 10 + 1 = 1844674407370955162) by reflexivity.
  induction s as [|c s IH]; intros acc Hacc; simpl.
  - by rewrite bool_decide_eq_true_2 by lia.
  - destruct (digit_of c) as [d|] eqn:Hd; simpl.
    2:{ done. }
    pose proof (digit_of_range _ _ Hd) as Hr.
    pose proof (decimalFrom_ge s (acc * 10 + d)) as Hge.
    case_bool_decide as H1.
    { rewrite (bool_decide_eq_false_2 (decimalFrom _ _ ≤ _)) by lia.
      by rewrite andb_false_r. }
    case_bool_decide as H2.
    { rewrite (bool_decide_eq_false_2 (decimalFrom _ _ ≤ _)) by lia.
      by rewrite andb_false_r. }
    apply IH. lia.
Qed.

(** [ParseUint] accepts the non-empty strings of decimal digits whose number
    fits 64 bits, and returns that number. *)
Lemma ParseUint_spec s :
  ParseUint s
  = if bool_decide (s ≠ "") && allDigits s
       && bool_decide (decimalFrom s 0 ≤ maxUint64)
    then Some (decimalFrom s 0) else None.
Proof.
  destruct s as [|c s]; [done|].
  unfold ParseUint. rewrite parseDigits_spec by (by vm_compute).
  by rewrite (bool_decide_eq_true_2 (String c s ≠ "")) by done.
Qed.

(** ** Claims on the goroutine filter *)

Lemma matching_elem pc gs x :
  x ∈ matching pc gs ↔ ∃ g, g ∈ gs ∧ trace.GPC g = pc ∧ trace.ID g = x.
Proof.
  unfold matching. rewrite elem_of_list_to_set, list_elem_of_fmap.
  split.
  - intros (g & -> & Hg). apply list_elem_of_filter in Hg as [Hpc Hin].
    by exists g.
  - intros (g & Hin & Hpc & <-). exists g. split; [done|].
    by apply list_elem_of_filter.
Qed.

(** The loop over [gs]: the map stays as it was when no goroutine matches,
    and is allocated and filled otherwise. *)
Lemma matchGoroutine_fold pc gs : ∀ res,
  fold_left (matchGoroutine pc) gs res
  = match filter (λ g, trace.GPC g = pc) gs with
    | [] => res
    | _ => Some (matching pc gs ∪ default ∅ res)
    end.
Proof.
  induction gs as [|g gs IH]; intros res; [done|].
  simpl. destruct (decide (trace.GPC g = pc)) as [Hpc|Hpc].
  - assert (Hs : matchGoroutine pc res g
                 = Some ({[ trace.ID g ]} ∪ default ∅ res)).
    { unfold matchGoroutine. rewrite bool_decide_eq_false_2 by (by intros ?).
      by destruct res. }
    rewrite Hs, IH. rewrite filter_cons_True by done.
    assert (Hm : matching pc (g :: gs) = {[ trace.ID g ]} ∪ matching pc gs).
    { unfold matching. by rewrite filter_cons_True by done. }
    rewrite Hm.
    destruct (filter (λ g0, trace.GPC g0 = pc) gs) as [|g' l] eqn:Hf.
    + assert (matching pc gs = ∅) as -> by (unfold matching; by rewrite Hf).
      f_equal. by rewrite (right_id_L ∅ (∪)).
    + simpl. f_equal.
      rewrite (assoc_L (∪)). f_equal. apply (comm_L (∪)).
  - assert (Hs : matchGoroutine pc res g = res).
    { unfold matchGoroutine. by rewrite bool_decide_eq_true_2 by done. }
    rewrite Hs, IH. rewrite filter_cons_False by done.
    assert (Hm : matching pc (g :: gs) = matching pc gs).
    { unfold matching. by rewrite filter_cons_False by done. }
    by rewrite Hm.
Qed.

Lemma matchGoroutine_fold_None pc gs :
  (∀ g, g ∈ gs → trace.GPC g ≠ pc) →
  fold_left (matchGoroutine pc) gs None = None.
Proof.
  intros Hn. rewrite matchGoroutine_fold.
  destruct (filter _ gs) as [|g l] eqn:Hf; [done|].
  assert (Hg : g ∈ filter (λ g0, trace.GPC g0 = pc) gs) by (rewrite Hf; left).
  apply list_elem_of_filter in Hg as [Hpc Hin]. by destruct (Hn g Hin).
Qed.

Lemma matchGoroutine_fold_Some pc gs g :
  g ∈ gs → trace.GPC g = pc →
  fold_left (matchGoroutine pc) gs None = Some (matching pc gs)
  ∧ matching pc gs ≠ ∅.
Proof.
  intros Hin Hpc. rewrite matchGoroutine_fold.
  assert (Hg : g ∈ filter (λ g0, trace.GPC g0 = pc) gs)
    by by apply list_elem_of_filter.
  assert (Hx : trace.ID g ∈ matching pc gs).
  { apply matching_elem. by exists g. }
  destruct (filter _ gs) as [|g' l] eqn:Hf.
  - by apply elem_of_nil in Hg.
  - split; [|intros He; rewrite He in Hx; by apply elem_of_empty in Hx].
    simpl. by rewrite (right_id_L ∅ (∪)).
Qed.

Example filter_scenarios :
  pprofMatchingGoroutines (λ _, threeGoroutines) "" [] = (None, None)
  ∧ pprofMatchingGoroutines (λ _, threeGoroutines) "notanumber" []
    = (None, Some (Errorf "invalid goroutine type: notanumber"))
  ∧ pprofMatchingGoroutines (λ _, threeGoroutines) "999" []
    = (None, Some (Errorf "failed to find matching goroutines for id: 999"))
  ∧ pprofMatchingGoroutines (λ _, threeGoroutines) "2748" []
    = (Some {[ 1; 3 ]}, None).
Proof. split_and!; vm_compute; reflexivity. Qed.

Example ParseUint_examples :
  ParseUint "0012" = Some 12
  ∧ ParseUint "18446744073709551615" = Some (2 ^ 64 - 1)
  ∧ ParseUint "18446744073709551616" = None
  ∧ ParseUint "-1" = None ∧ ParseUint "+1" = None
  ∧ ParseUint "0xABC" = None ∧ ParseUint "1_000" = None
  ∧ ParseUint "" = None.
Proof. split_and!; reflexivity. Qed.

(** C6. For every identifier and event sequence, the filter returns a nil
    set and no error when the identifier is empty; the error
    "invalid goroutine type" when [strconv.ParseUint(id, 10, 64)] fails; the
    error "failed to find matching goroutines", which differs from the
    result for the empty identifier and from the first error, when the
    identifier parses and no goroutine was created at that program counter;
    and otherwise the set of the ids of the goroutines created at it. *)
Theorem goroutine_filter_outcomes
    (analyzeGoroutines : list trace.Event → list trace.GDesc)
    (id : string) (events : list trace.Event) :
  let gs := analyzeGoroutines events in
  let result := pprofMatchingGoroutines analyzeGoroutines id events in
  (id = "" → result = (None, None))
  ∧ (id ≠ "" → ParseUint id = None →
     result = (None, Some (invalidGoroutineType id)))
  ∧ (∀ pc, id ≠ "" → ParseUint id = Some pc →
       (∀ g, g ∈ gs → trace.GPC g ≠ pc) →
       result = (None, Some (noMatchingGoroutines id))
       ∧ (None, Some (noMatchingGoroutines id))
         ≠ ((None, None) : option (gset Z) * option error)
       ∧ noMatchingGoroutines id ≠ invalidGoroutineType id)
  ∧ (∀ pc g, id ≠ "" → ParseUint id = Some pc →
       g ∈ gs → trace.GPC g = pc →
       ∃ s, result = (Some s, None)
            ∧ ∀ x, x ∈ s ↔ ∃ g', g' ∈ gs ∧ trace.GPC g' = pc ∧ trace.ID g' = x).
Proof.
  intros gs result. subst result.
  unfold pprofMatchingGoroutines. fold gs. clearbody gs. split_and!.
  - intros ->. done.
  - intros Hne Hp. rewrite bool_decide_eq_false_2 by done. by rewrite Hp.
  - intros pc Hne Hp Hn. rewrite bool_decide_eq_false_2 by done.
    rewrite Hp. simpl. rewrite (matchGoroutine_fold_None _ _ Hn). simpl.
    rewrite bool_decide_eq_true_2 by done. split_and!; done.
  - intros pc g Hne Hp Hin Hpc. rewrite bool_decide_eq_false_2 by done.
    rewrite Hp. simpl.
    destruct (matchGoroutine_fold_Some _ _ _ Hin Hpc) as [-> Hs]. simpl.
    rewrite (bool_decide_eq_false_2 (size _ = 0%nat)).
    2:{ intros Hz. by apply size_empty_inv, leibniz_equiv in Hz. }
    simpl. exists (matching pc gs). split; [done|]. apply matching_elem.
Qed.

Lemma goroutine_filter_outcomes_witness :
  ∃ s, pprofMatchingGoroutines (λ _, threeGoroutines) "2748" []
       = (Some s, None)
       ∧ ∀ x, x ∈ s
              ↔ ∃ g', g' ∈ threeGoroutines
                      ∧ trace.GPC g' = 2748 ∧ trace.ID g' = x.
Proof.
  destruct (goroutine_filter_outcomes (λ _, threeGoroutines) "2748" [])
    as (_ & _ & _ & H).
  apply (H 2748 (trace.mkGDesc 1 2748)).
  - discriminate.
  - reflexivity.
  - left.
  - reflexivity.
Defined.

(** C10. For every identifier and event sequence, the filter never returns
    an empty non-nil set: it returns a nil set and no error, for the empty
    identifier only; or a set with at least one goroutine id and no error; or
    a nil set and an error. *)
Theorem goroutine_filter_never_empty
    (analyzeGoroutines : list trace.Event → list trace.GDesc)
    (id : string) (events : list trace.Event) :
  let result := pprofMatchingGoroutines analyzeGoroutines id events in
  (id = "" ∧ result = (None, None))
  ∨ (id ≠ "" ∧ ∃ s x, result = (Some s, None) ∧ x ∈ s)
  ∨ (id ≠ "" ∧ ∃ e, result = (None, Some e)).
Proof.
  intros result. subst result. unfold pprofMatchingGoroutines.
  set (gs := analyzeGoroutines events). clearbody gs.
  destruct (decide (id = "")) as [->|Hne]; [by left|].
  right. rewrite bool_decide_eq_false_2 by done.
  destruct (ParseUint id) as [pc|]; [|right; split; [done|]; by eexists].
  simpl.
  destruct (filter (λ g, trace.GPC g = pc) gs) as [|g l] eqn:Hf.
  - right. split; [done|]. rewrite matchGoroutine_fold, Hf. simpl.
    rewrite bool_decide_eq_true_2 by done. by eexists.
  - left. split; [done|].
    assert (Hg : g ∈ filter (λ g0, trace.GPC g0 = pc) gs) by (rewrite Hf; left).
    apply list_elem_of_filter in Hg as [Hpc Hin].
    destruct (matchGoroutine_fold_Some _ _ _ Hin Hpc) as [-> Hs]. simpl.
    rewrite (bool_decide_eq_false_2 (size _ = 0%nat)).
    2:{ intros Hz. by apply size_empty_inv, leibniz_equiv in Hz. }
    simpl. exists (matching pc gs), (trace.ID g). split; [done|].
    apply matching_elem. by exists g.
Qed.

(** ** The temporary files of the rendered branch *)

Lemma length_append (s1 s2 : string) :
  String.length (s1 +:+ s2) = (String.length s1 + String.length s2)%nat.
Proof. induction s1 as [|c s1 IH]; simpl; [done|]. by rewrite IH. Qed.

Lemma svg_name_fresh (name : string) : name +:+ ".svg" ≠ name.
Proof.
  intros Heq. apply (f_equal String.length) in Heq.
  rewrite length_append in Heq. simpl in Heq. lia.
Qed.

(** The storage a rendered-branch request leaves. *)
Lemma rendered_storage (o : Outcome) (fs : gset string) (name : string) :
  raw o = "" → tempFile o = inr name →
  (serveSVGProfile o fs).1
  = if rendererRuns o then
      let fs' := if pprofWroteOutput o
                 then {[ name +:+ ".svg" ]} ∪ ({[ name ]} ∪ fs)
                 else {[ name ]} ∪ fs in
      if isNil (pprofErr o) then (fs' ∖ {[ name +:+ ".svg" ]}) ∖ {[ name ]}
      else fs' ∖ {[ name ]}
    else ({[ name ]} ∪ fs) ∖ {[ name ]}.
Proof.
  intros Hraw Ht. unfold serveSVGProfile, renderedBody, rendererRuns.
  rewrite Hraw, Ht. simpl.
  by destruct (profErr o), (flushErr o), (closeErr o), (pprofErr o).
Qed.

(** The temporary profile file is gone after every rendered-branch
    request, whichever step fails. *)
Lemma temp_profile_file_removed (o : Outcome) (fs : gset string) (name : string) :
  raw o = "" → tempFile o = inr name →
  name ∉ (serveSVGProfile o fs).1.
Proof.
  intros Hraw Ht. rewrite (rendered_storage _ _ _ Hraw Ht).
  destruct (rendererRuns o), (pprofWroteOutput o), (isNil (pprofErr o));
    simpl; storage_solver.
Qed.

(** The rendered image is gone after a request that succeeds, and after
    one that fails before the renderer runs or whose renderer left no output
    file, when no such file was there before. *)
Lemma rendered_image_removed (o : Outcome) (fs : gset string) (name : string) :
  raw o = "" → tempFile o = inr name →
  (rendererRuns o = true ∧ pprofErr o = None)
  ∨ (((name +:+ ".svg") ∉ fs)
     ∧ (rendererRuns o = false ∨ pprofWroteOutput o = false)) →
  name +:+ ".svg" ∉ (serveSVGProfile o fs).1.
Proof.
  intros Hraw Ht Hc. rewrite (rendered_storage _ _ _ Hraw Ht).
  pose proof (svg_name_fresh name) as Hne.
  destruct Hc as [[-> ->]|[Hin [->| ->]]]; simpl.
  - destruct (pprofWroteOutput o); storage_solver.
  - storage_solver.
  - destruct (rendererRuns o), (isNil (pprofErr o)); storage_solver.
Qed.

(** The rendered image stays when the renderer wrote it and failed. *)
Lemma rendered_image_left (o : Outcome) (fs : gset string) (name : string) :
  raw o = "" → tempFile o = inr name →
  rendererRuns o = true → pprofWroteOutput o = true → is_Some (pprofErr o) →
  name +:+ ".svg" ∈ (serveSVGProfile o fs).1.
Proof.
  intros Hraw Ht Hrun Hw [e He]. rewrite (rendered_storage _ _ _ Hraw Ht).
  rewrite Hrun, Hw, He. simpl.
  pose proof (svg_name_fresh name) as Hne.
  storage_solver.
Qed.

(** C8. After the request [failedRender], on an empty storage, the temporary
    profile file is gone and the rendered image the renderer wrote is still
    there: the source defers the removal of the image only once the renderer
    has succeeded. *)
Theorem failed_renderer_leaves_image :
  (serveSVGProfile failedRender ∅).1 = {[ "/tmp/block123.svg" ]}
  ∧ ("/tmp/block123" ∉ (serveSVGProfile failedRender ∅).1)
  ∧ ("/tmp/block123.svg" ∈ (serveSVGProfile failedRender ∅).1).
Proof.
  assert (H : (serveSVGProfile failedRender ∅).1 = {[ "/tmp/block123.svg" ]}).
  { unfold serveSVGProfile, renderedBody, failedRender, runDefers, osRemove.
    simpl. apply set_eq. intros x.
    rewrite elem_of_difference, !elem_of_union, !elem_of_singleton.
    split.
    - intros [[->|[->|Hx]] Hn]; [done|by destruct Hn|by apply elem_of_empty in Hx].
    - intros ->. split; [by left|discriminate]. }
  rewrite H. split_and!; [done| |].
  - rewrite elem_of_singleton. discriminate.
  - by apply elem_of_singleton.
Qed.

(** * Further properties *)

(** ** The goroutine filter inside the aggregators *)

Lemma loopBody_filter sk (s : gset Z) prof ev :
  loopBody sk (Some s) prof ev
  = if decide (trace.G ev ∈ s) then loopBody sk None prof ev else prof.
Proof.
  unfold loopBody, filteredOut.
  destruct (sk _ || isNil _ || bool_decide _ || bool_decide _) eqn:Hskip.
  - by destruct (decide _).
  - destruct (decide (trace.G ev ∈ s)) as [Hin|Hout].
    + by rewrite bool_decide_eq_true_2.
    + by rewrite bool_decide_eq_false_2.
Qed.

Lemma aggregate_filtered c (s : gset Z) events :
  aggregate c (Some s) events
  = aggregate c None (filter (λ ev, trace.G ev ∈ s) events).
Proof.
  induction events as [|ev events IH] using rev_ind; [by destruct c|].
  rewrite filter_app, aggregate_snoc, loopBody_filter, IH.
  destruct (decide (trace.G ev ∈ s)) as [Hin|Hout].
  - rewrite (filter_cons_True _ ev []) by done.
    by rewrite filter_nil, aggregate_snoc.
  - rewrite (filter_cons_False _ ev []) by done.
    by rewrite filter_nil, app_nil_r.
Qed.

(** X1. Aggregating under a goroutine filter set is aggregating, without a
    filter, the events whose goroutine is in the set: an event of another
    goroutine changes no record, in any of the four categories. *)
Theorem filter_restricts_to_members
    (c : Category) (s : gset Z) (events : list trace.Event) :
  aggregate c (Some s) events
  = aggregate c None (filter (λ ev, trace.G ev ∈ s) events).
Proof. apply aggregate_filtered. Qed.

(** [pprofMatchingGoroutines] as a function of the set of matching ids. *)
Lemma pprofMatchingGoroutines_spec ag id events :
  pprofMatchingGoroutines ag id events
  = if decide (id = "") then (None, None)
    else match ParseUint id with
         | None => (None, Some (invalidGoroutineType id))
         | Some pc =>
             if decide (matching pc (ag events) = ∅)
             then (None, Some (noMatchingGoroutines id))
             else (Some (matching pc (ag events)), None)
         end.
Proof.
  unfold pprofMatchingGoroutines.
  destruct (decide (id = "")) as [->|Hne]; [done|].
  rewrite bool_decide_eq_false_2 by done.
  destruct (ParseUint id) as [pc|]; [|done]. simpl.
  rewrite matchGoroutine_fold. unfold matching.
  destruct (filter (λ g, trace.GPC g = pc) (ag events)) as [|g l] eqn:Hf.
  - simpl. rewrite decide_True by done.
    by rewrite bool_decide_eq_true_2 by done.
  - fold (matching pc (ag events)). rewrite <- Hf. fold (matching pc (ag events)).
    assert (Hin : trace.ID g ∈ matching pc (ag events)).
    { unfold matching. rewrite Hf. simpl. apply elem_of_union_l.
      by apply elem_of_singleton. }
    assert (Hne' : matching pc (ag events) ≠ ∅).
    { intros He. rewrite He in Hin. by apply elem_of_empty in Hin. }
    rewrite decide_False by done. simpl.
    rewrite (right_id_L ∅ (∪)).
    rewrite (bool_decide_eq_false_2 (size _ = 0%nat)).
    2:{ intros Hz. by apply size_empty_inv, leibniz_equiv in Hz. }
    done.
Qed.

Lemma matching_empty pc gs :
  matching pc gs = ∅ ↔ ∀ g, g ∈ gs → trace.GPC g ≠ pc.
Proof.
  split.
  - intros He g Hin Hpc.
    assert (Hx : trace.ID g ∈ matching pc gs)
      by (apply matching_elem; by exists g).
    rewrite He in Hx. by apply elem_of_empty in Hx.
  - intros Hn. apply set_eq. intros x. rewrite matching_elem. split.
    + intros (g & Hin & Hpc & _). by destruct (Hn g Hin).
    + intros Hx. by apply elem_of_empty in Hx.
Qed.

Lemma matching_perm pc gs1 gs2 :
  gs1 ≡ₚ gs2 → matching pc gs1 = matching pc gs2.
Proof.
  intros Hp. apply set_eq. intros x. rewrite !matching_elem.
  split; intros (g & Hin & H'); exists g; split; try done.
  - by rewrite <- Hp.
  - by rewrite Hp.
Qed.

Lemma pprof_unfold c pe ag id :
  pprof c pe ag id
  = match pe with
    | inl err => inl err
    | inr events =>
        match pprofMatchingGoroutines ag id events with
        | (_, Some err) => inl err
        | (goroutines, None) => inr (aggregate c goroutines events)
        end
    end.
Proof. by destruct c. Qed.

(** X2. With an identifier that parses to the program counter [pc] at which
    some goroutine was created, each of the four functions reaches
    [buildProfile] with the aggregation of exactly the events of the
    goroutines created at [pc] (those whose id is in [matching pc]), and
    returns what [buildProfile(prof).Write(w)] returns. *)
Theorem pipeline_selects_goroutine_type
    (c : Category) (events : list trace.Event)
    (analyzeGoroutines : list trace.Event → list trace.GDesc)
    (id : string) (pc : Z) (g : trace.GDesc) (writeErr : option error) :
  id ≠ "" → ParseUint id = Some pc →
  g ∈ analyzeGoroutines events → trace.GPC g = pc →
  pprof c (inr events) analyzeGoroutines id
  = inr (aggregate c None
           (filter (λ ev, trace.G ev ∈ matching pc (analyzeGoroutines events))
              events))
  ∧ profError c (inr events) analyzeGoroutines id writeErr = writeErr.
Proof.
  intros Hne Hp Hin Hpc.
  assert (H : pprof c (inr events) analyzeGoroutines id
              = inr (aggregate c None
                       (filter (λ ev, trace.G ev
                                      ∈ matching pc (analyzeGoroutines events))
                          events))).
  { rewrite pprof_unfold, pprofMatchingGoroutines_spec.
    rewrite decide_False by done. rewrite Hp.
    rewrite decide_False.
    2:{ rewrite matching_empty. intros Hn. by destruct (Hn g Hin). }
    by rewrite aggregate_filtered. }
  split; [done|]. unfold profError. by rewrite H.
Qed.

Lemma pipeline_selects_goroutine_type_witness :
  pprof NetworkWait (inr threeEvents) tableA "2748"
  = inr (aggregate NetworkWait None
           (filter (λ ev, trace.G ev ∈ matching 2748 (tableA threeEvents))
              threeEvents))
  ∧ profError NetworkWait (inr threeEvents) tableA "2748"
      (Some (Errorf "short write"))
    = Some (Errorf "short write").
Proof.
  apply (pipeline_selects_goroutine_type NetworkWait threeEvents tableA
           "2748" 2748 (trace.mkGDesc 1 2748)).
  - discriminate.
  - reflexivity.
  - left.
  - reflexivity.
Defined.

Example pipeline_filter_example :
  pprof NetworkWait (inr threeEvents) tableA "2748"
  = inr {[ 42 := mkRecord [sampleFrame] 1 100;
           43 := mkRecord [otherFrame] 1 7 ]}.
Proof. vm_compute. reflexivity. Qed.

(** X3. Each of the four functions returns an error exactly when
    [parseEvents] failed, or the goroutine filter failed (the identifier is
    non-empty and either does not parse or names a program counter at which
    no goroutine was created), or both succeeded and
    [buildProfile(prof).Write(w)] failed.  The error of [parseEvents] and the
    error of the filter are returned whatever [Write] would do, and otherwise
    the function returns the result of [Write]. *)
Theorem pipeline_fails_iff
    (c : Category) (parseEvents : error + list trace.Event)
    (analyzeGoroutines : list trace.Event → list trace.GDesc) (id : string)
    (writeErr : option error) :
  (is_Some (profError c parseEvents analyzeGoroutines id writeErr)
   ↔ (∃ err, parseEvents = inl err)
     ∨ (∃ events, parseEvents = inr events
                  ∧ filterFails analyzeGoroutines id events)
     ∨ (∃ events, parseEvents = inr events
                  ∧ ¬ filterFails analyzeGoroutines id events
                  ∧ is_Some writeErr))
  ∧ (∀ err, parseEvents = inl err →
            profError c parseEvents analyzeGoroutines id writeErr = Some err)
  ∧ (∀ events, parseEvents = inr events →
       filterFails analyzeGoroutines id events →
       profError c parseEvents analyzeGoroutines id writeErr
       = (pprofMatchingGoroutines analyzeGoroutines id events).2
       ∧ is_Some (pprofMatchingGoroutines analyzeGoroutines id events).2)
  ∧ (∀ events, parseEvents = inr events →
       ¬ filterFails analyzeGoroutines id events →
       profError c parseEvents analyzeGoroutines id writeErr = writeErr).
Proof.
  unfold profError. rewrite pprof_unfold.
  destruct parseEvents as [e|events].
  { split_and!; try done.
    - split; [intros _; left; by exists e | intros _; by eexists].
    - by intros err [= ->]. }
  assert (Hcases :
    (filterFails analyzeGoroutines id events
     ∧ ∃ err, pprofMatchingGoroutines analyzeGoroutines id events
              = (None, Some err))
    ∨ (¬ filterFails analyzeGoroutines id events
       ∧ ∃ s, pprofMatchingGoroutines analyzeGoroutines id events = (s, None))).
  { rewrite pprofMatchingGoroutines_spec. unfold filterFails.
    destruct (decide (id = "")) as [->|Hne].
    { right. split; [by intros [? _] | by eexists]. }
    destruct (ParseUint id) as [pc|].
    - destruct (decide (matching pc (analyzeGoroutines events) = ∅))
        as [He|He].
      + left. split; [|by eexists]. split; [done|]. by apply matching_empty.
      + right. split; [|by eexists]. intros [_ Hn].
        by apply matching_empty in Hn.
    - left. split; [done|]. by eexists. }
  destruct Hcases as [[Hf [err Herr]]|[Hnf [s' Hs']]].
  - rewrite Herr. split_and!.
    + split; [intros _|intros _; by eexists].
      right. left. by exists events.
    + by intros err' [=].
    + intros evs [= <-] _. rewrite Herr. simpl. split; [done | by eexists].
    + intros evs [= <-] Hn. by destruct Hn.
  - rewrite Hs'. split_and!.
    + split.
      * intros Hw. right. right. by exists events.
      * intros [[err [=]]|[(evs & [= <-] & Hf)|(evs & [= <-] & _ & Hw)]];
          [by destruct Hnf | done].
    + by intros err' [=].
    + intros evs [= <-] Hf. by destruct Hnf.
    + done.
Qed.

(** X4. The filter does not depend on the order in which the loop visits the
    goroutine table: two tables with the same goroutines give the same set
    or the same error. *)
Theorem goroutine_filter_order_independent
    (ag1 ag2 : list trace.Event → list trace.GDesc)
    (id : string) (events : list trace.Event) :
  ag1 events ≡ₚ ag2 events →
  pprofMatchingGoroutines ag1 id events = pprofMatchingGoroutines ag2 id events.
Proof.
  intros Hp. rewrite !pprofMatchingGoroutines_spec.
  destruct (decide (id = "")); [done|].
  destruct (ParseUint id) as [pc|]; [|done].
  by rewrite (matching_perm pc _ _ Hp).
Qed.

Lemma goroutine_filter_order_independent_witness :
  pprofMatchingGoroutines tableA "2748" threeEvents
  = pprofMatchingGoroutines tableB "2748" threeEvents.
Proof.
  apply (goroutine_filter_order_independent tableA tableB "2748" threeEvents).
  unfold tableA, tableB. symmetry.
  apply (Permutation_cons_append
           [trace.mkGDesc 1 2748; trace.mkGDesc 2 17] (trace.mkGDesc 3 2748)).
Defined.

(** ** The event types of the categories *)

(** X5. No event contributes to two profiles: the event types the four
    categories accept are disjoint, so an event that qualifies for one
    category, under any filter, qualifies for no other. *)
Theorem categories_are_disjoint
    (c1 c2 : Category) (g1 g2 : option (gset Z)) (ev : trace.Event) :
  qualifies c1 g1 ev = true → c1 ≠ c2 → qualifies c2 g2 ev = false.
Proof.
  unfold qualifies. intros H1 Hne.
  destruct (skipType c1 (trace.Type_ ev)) eqn:Hs1; [done|]. clear H1.
  destruct (skipType c2 (trace.Type_ ev)) eqn:Hs2; [done|].
  destruct (trace.Type_ ev), c1, c2; try (by destruct Hne);
    vm_compute in Hs1, Hs2; discriminate.
Qed.

Lemma categories_are_disjoint_witness :
  qualifies NetworkWait None (netBlock 1 1000 1100 42 [sampleFrame]) = true
  ∧ qualifies SyncBlock None (netBlock 1 1000 1100 42 [sampleFrame]) = false.
Proof.
  split; [reflexivity|].
  apply (categories_are_disjoint NetworkWait SyncBlock None None
           (netBlock 1 1000 1100 42 [sampleFrame])); [reflexivity|discriminate].
Defined.

(** ** Invariants of the record maps *)

Lemma qualifies_structure c g ev :
  qualifies c g ev = true →
  is_Some (trace.Link ev) ∧ trace.StkID ev ≠ 0 ∧ trace.Stk ev ≠ [].
Proof.
  intros Hq. split_and!.
  - destruct (trace.Link ev) eqn:Hl; [by eexists|].
    by rewrite (structural_failure_not_qualifies c g ev) in Hq by (by left).
  - intros H0.
    by rewrite (structural_failure_not_qualifies c g ev) in Hq
      by (right; by left).
  - intros H0.
    by rewrite (structural_failure_not_qualifies c g ev) in Hq
      by (right; by right).
Qed.

Lemma aggregate_record_origin c g events id r :
  aggregate c g events !! id = Some r →
  ∃ ev, ev ∈ events ∧ qualifies c g ev = true
        ∧ trace.StkID ev = id ∧ trace.Stk ev = stk r.
Proof.
  rewrite aggregate_lookup. unfold summary.
  destruct (last (qualifying c g id events)) as [ev|] eqn:Hl; [|done].
  intros [= <-]. simpl. exists ev.
  apply last_Some_elem_of in Hl. unfold qualifying in Hl.
  apply list_elem_of_filter in Hl as [[Hq Hid] Hin]. done.
Qed.

(** X6. Every record of an aggregation comes from an event of the input: its
    key is the non-zero stack identifier of a qualifying event and its stack
    is that event's stack, which is not empty.  No record has key 0 or an
    empty stack. *)
Theorem records_come_from_events
    (c : Category) (goroutines : option (gset Z))
    (events : list trace.Event) (id : Z) (r : Record_) :
  aggregate c goroutines events !! id = Some r →
  id ≠ 0 ∧ stk r ≠ []
  ∧ ∃ ev, ev ∈ events ∧ qualifies c goroutines ev = true
          ∧ trace.StkID ev = id ∧ trace.Stk ev = stk r.
Proof.
  intros Hr.
  destruct (aggregate_record_origin _ _ _ _ _ Hr) as (ev & Hin & Hq & Hid & Hs).
  destruct (qualifies_structure _ _ _ Hq) as (_ & H0 & Hne).
  split_and!; [congruence | congruence |]. by exists ev.
Qed.

Lemma records_come_from_events_witness :
  aggregate NetworkWait None threeEvents !! 43
  = Some (mkRecord [otherFrame] 1 7)
  ∧ 43 ≠ 0 ∧ [otherFrame] ≠ [].
Proof.
  split; [reflexivity|].
  destruct (records_come_from_events NetworkWait None threeEvents 43
              (mkRecord [otherFrame] 1 7) eq_refl) as (H0 & Hs & _).
  split; [exact H0 | exact Hs].
Defined.

(** X7. In a profile built from an aggregation, in whichever order the map
    is visited, every sample lists at least one location. *)
Theorem aggregated_samples_have_locations
    (c : Category) (goroutines : option (gset Z))
    (events : list trace.Event) (recs : list Record_) :
  rangeOrder (aggregate c goroutines events) recs →
  Forall (λ s, profile.Sample_Location s ≠ [])
    (profile.p_Sample (buildProfileFrom recs)).
Proof.
  intros Hr.
  destruct (buildProfileFrom_tables recs) as (b & -> & _ & HS).
  apply Forall_forall. intros s Hs.
  apply list_elem_of_lookup in Hs as [i Hi].
  destruct (Forall2_lookup_r _ _ _ _ _ HS Hi) as (rec & Hrec & _ & Hm).
  assert (Hin : rec ∈ recs) by (apply list_elem_of_lookup; by exists i).
  rewrite Hr in Hin. apply list_elem_of_fmap in Hin as ([id r] & -> & Hin).
  apply elem_of_map_to_list in Hin. simpl in *.
  destruct (aggregate_record_origin _ _ _ _ _ Hin) as (ev & _ & Hq & _ & Hstk).
  destruct (qualifies_structure _ _ _ Hq) as (_ & _ & Hne).
  intros Hnil. rewrite Hnil in Hm. apply Forall2_nil_inv_r in Hm. congruence.
Qed.

Lemma aggregated_samples_have_locations_witness :
  Forall (λ s, profile.Sample_Location s ≠ [])
    (profile.p_Sample
       (buildProfileFrom
          (map_to_list (aggregate NetworkWait None threeEvents)).*2)).
Proof.
  apply (aggregated_samples_have_locations NetworkWait None threeEvents).
  unfold rangeOrder. reflexivity.
Defined.

Lemma summary_n (qs : list trace.Event) :
  n (default zeroRecord (summary qs)) = wrapU64 (Z.of_nat (length qs)).
Proof.
  unfold summary. destruct (last qs) eqn:Hl; [done|].
  by apply last_None in Hl as ->.
Qed.

Lemma summary_time (qs : list trace.Event) :
  time (default zeroRecord (summary qs)) = wrapI64 (sumZ (duration <$> qs)).
Proof.
  unfold summary. destruct (last qs) eqn:Hl; [done|].
  by apply last_None in Hl as ->.
Qed.

Lemma summary_is_Some (qs : list trace.Event) : is_Some (summary qs) ↔ qs ≠ [].
Proof.
  unfold summary. destruct (last qs) as [e|] eqn:Hl.
  - split; [|intros _; by eexists].
    intros _ ->. discriminate Hl.
  - apply last_None in Hl as ->. split; [by intros [? [=]] | done].
Qed.

Lemma wrapU64_add (a b : Z) : wrapU64 (wrapU64 a + wrapU64 b) = wrapU64 (a + b).
Proof. unfold wrapU64. symmetry. apply Zplus_mod. Qed.

(** X8. Aggregation composes over concatenation: the record of an
    identifier after [evs1 ++ evs2] has the sum of the counts (in [uint64])
    and the sum of the durations (in [int64]) of its records after [evs1] and
    after [evs2], an absent record counting as zero; its stack is the one
    after [evs2] when [evs2] has a record for it, and the one after [evs1]
    otherwise. *)
Theorem aggregate_concatenation
    (c : Category) (goroutines : option (gset Z))
    (evs1 evs2 : list trace.Event) (id : Z) :
  let r1 := default zeroRecord (aggregate c goroutines evs1 !! id) in
  let r2 := default zeroRecord (aggregate c goroutines evs2 !! id) in
  let r := default zeroRecord (aggregate c goroutines (evs1 ++ evs2) !! id) in
  n r = wrapU64 (n r1 + n r2)
  ∧ time r = wrapI64 (time r1 + time r2)
  ∧ stk r = match aggregate c goroutines evs2 !! id with
            | Some r2' => stk r2'
            | None => stk r1
            end
  ∧ (is_Some (aggregate c goroutines (evs1 ++ evs2) !! id)
     ↔ is_Some (aggregate c goroutines evs1 !! id)
       ∨ is_Some (aggregate c goroutines evs2 !! id)).
Proof.
  intros r1 r2 r. subst r1 r2 r. rewrite !aggregate_lookup.
  unfold qualifying. rewrite filter_app.
  set (q1 := filter _ evs1). set (q2 := filter _ evs2).
  split_and!.
  - rewrite !summary_n, wrapU64_add, length_app. f_equal. lia.
  - rewrite !summary_time, wrapI64_add_l, wrapI64_add_r.
    by rewrite fmap_app, sumZ_app.
  - unfold summary. rewrite last_app.
    destruct (last q2) as [e2|] eqn:H2; [done|].
    by destruct (last q1).
  - rewrite !summary_is_Some.
    destruct q1, q2; simpl; split; try tauto; try (intros _; by left);
      try (intros _; by right); intros _; done.
Qed.

(** X9. An aggregation holds one record for each distinct stack identifier
    of the qualifying events. *)
Theorem one_record_per_identifier
    (c : Category) (goroutines : option (gset Z)) (events : list trace.Event) :
  size (aggregate c goroutines events)
  = distinct trace.StkID
      (filter (λ ev, qualifies c goroutines ev = true) events).
Proof.
  rewrite <- size_dom. unfold distinct. f_equal.
  apply set_eq. intros id.
  rewrite elem_of_dom, aggregate_lookup, summary_is_Some.
  rewrite elem_of_list_to_set, list_elem_of_fmap. unfold qualifying. split.
  - intros Hne.
    destruct (filter _ events) as [|ev l] eqn:Hf; [done|].
    assert (Hin : ev ∈ filter
                    (λ ev, qualifies c goroutines ev = true
                           ∧ trace.StkID ev = id) events)
      by (rewrite Hf; left).
    apply list_elem_of_filter in Hin as [[Hq Hid] Hin].
    exists ev. split; [done|]. by apply list_elem_of_filter.
  - intros (ev & -> & Hin) Hnil.
    apply list_elem_of_filter in Hin as [Hq Hin].
    assert (Hin' : ev ∈ filter
                     (λ ev', qualifies c goroutines ev' = true
                             ∧ trace.StkID ev' = trace.StkID ev) events)
      by by apply list_elem_of_filter.
    rewrite Hnil in Hin'. by apply elem_of_nil in Hin'.
Qed.

Lemma duration_exact ev :
  - 2 ^ 63 ≤ exactDuration ev < 2 ^ 63 → duration ev = exactDuration ev.
Proof.
  unfold duration, exactDuration. destruct (trace.Link ev); [|done].
  apply wrapI64_small.
Qed.

(** X10. Without overflow the record of an identifier is exact: when the
    input has fewer than 2^64 events, the count is the number of qualifying
    events with that identifier, which is at least 1; and when each of their
    durations and the sum of the durations fit [int64], the cumulative
    duration is that sum. *)
Theorem record_exact_without_overflow
    (c : Category) (goroutines : option (gset Z))
    (events : list trace.Event) (id : Z) (r : Record_) :
  Z.of_nat (length events) < 2 ^ 64 →
  aggregate c goroutines events !! id = Some r →
  n r = Z.of_nat (length (qualifying c goroutines id events))
  ∧ 1 ≤ n r ≤ Z.of_nat (length events)
  ∧ ((∀ ev, ev ∈ qualifying c goroutines id events →
            - 2 ^ 63 ≤ exactDuration ev < 2 ^ 63) →
     - 2 ^ 63 ≤ sumZ (exactDuration <$> qualifying c goroutines id events)
       < 2 ^ 63 →
     time r = sumZ (exactDuration <$> qualifying c goroutines id events)).
Proof.
  intros Hlen Hr. rewrite aggregate_lookup in Hr.
  assert (Hne : qualifying c goroutines id events ≠ []).
  { apply summary_is_Some. by eexists. }
  assert (Hle : (length (qualifying c goroutines id events)
                 ≤ length events)%nat) by apply length_filter.
  assert (Hn : n r = Z.of_nat (length (qualifying c goroutines id events))).
  { pose proof (summary_n (qualifying c goroutines id events)) as Hs.
    rewrite Hr in Hs. simpl in Hs. rewrite Hs. apply wrapU64_small. lia. }
  split_and!; try lia.
  - rewrite Hn. destruct (qualifying c goroutines id events); [done|].
    simpl. lia.
  - intros Hd Hsum.
    pose proof (summary_time (qualifying c goroutines id events)) as Hs.
    rewrite Hr in Hs. simpl in Hs. rewrite Hs.
    assert (Heq : duration <$> qualifying c goroutines id events
                  = exactDuration <$> qualifying c goroutines id events).
    { apply list_fmap_ext. intros i ev Hi. apply duration_exact, Hd.
      apply list_elem_of_lookup. by exists i. }
    rewrite Heq. by apply wrapI64_small.
Qed.

Lemma record_exact_without_overflow_witness :
  n (mkRecord [sampleFrame] 2 250)
  = Z.of_nat (length (qualifying NetworkWait None 42 threeEvents)).
Proof.
  apply (record_exact_without_overflow NetworkWait None threeEvents 42
           (mkRecord [sampleFrame] 2 250)).
  - by vm_compute.
  - reflexivity.
Defined.

(** ** Further properties of the profile builder *)

Lemma internLocation_metadata b frame :
  metadata (p (internLocation b frame).2) = metadata (p b).
Proof.
  unfold internLocation, internFunction.
  destruct (locs b !! trace.PC frame); [done|].
  by destruct (funcs b !! funcKey frame).
Qed.

Lemma addFrame_fold_metadata stack : ∀ acc,
  metadata (p (fold_left addFrame stack acc).1) = metadata (p acc.1).
Proof.
  induction stack as [|frame stack IH]; intros acc; [done|].
  simpl. rewrite IH. unfold addFrame.
  pose proof (internLocation_metadata acc.1 frame) as Hm.
  by destruct (internLocation acc.1 frame).
Qed.

Lemma addRecord_metadata b rec : metadata (p (addRecord b rec)) = metadata (p b).
Proof.
  unfold addRecord.
  pose proof (addFrame_fold_metadata (stk rec) (b, [])) as Hm.
  by destruct (fold_left addFrame (stk rec) (b, [])).
Qed.

(** X11. Every profile the builder returns, for any records in any order,
    has the period type (trace, count), the period 1 and the two sample
    types (contentions, count) and (delay, nanoseconds): the loops never
    touch these fields. *)
Theorem profile_metadata_is_fixed (recs : list Record_) :
  profile.PeriodType (buildProfileFrom recs)
  = profile.mkValueType "trace" "count"
  ∧ profile.Period (buildProfileFrom recs) = 1
  ∧ profile.SampleType (buildProfileFrom recs)
    = [ profile.mkValueType "contentions" "count";
        profile.mkValueType "delay" "nanoseconds" ].
Proof.
  assert (H : metadata (buildProfileFrom recs) = metadata emptyProfile).
  { unfold buildProfileFrom.
    induction recs as [|rec recs IH] using rev_ind; [done|].
    rewrite fold_left_app. simpl. by rewrite addRecord_metadata. }
  unfold metadata in H. by injection H as -> -> ->.
Qed.

(** X12. Entry [i] of the location list is made from the [i]-th frame that
    introduces a program counter: it has that frame's program counter as
    address and exactly one line, with the frame's line number and a function
    of the function list whose key file+name is the frame's key. *)
Theorem location_entries
    (recs : list Record_) (i : nat) (loc : profile.Location) :
  profile.p_Location (buildProfileFrom recs) !! i = Some loc →
  ∃ frame fn,
    locFrames (allFrames recs) !! i = Some frame
    ∧ frame ∈ allFrames recs
    ∧ profile.Address loc = trace.PC frame
    ∧ profile.Location_Line loc = [ profile.mkLine fn (trace.Line frame) ]
    ∧ fn ∈ profile.p_Function (buildProfileFrom recs)
    ∧ profile.Filename fn +:+ profile.Name fn
      = trace.File frame +:+ trace.Fn frame.
Proof.
  destruct (buildProfileFrom_tables recs) as (b & -> & HT & _).
  intros Hi.
  destruct (T_loc _ _ HT _ _ Hi) as (frame & fn & Hf & -> & Hfn & Hk).
  exists frame, fn. split_and!; try done.
  apply (firstSeenBy_elem trace.PC). apply list_elem_of_lookup. by exists i.
Qed.

Lemma location_entries_witness :
  ∃ frame fn,
    locFrames (allFrames [sharedKey]) !! 1%nat = Some frame
    ∧ frame ∈ allFrames [sharedKey]
    ∧ profile.Address
        (profile.mkLocation 2 8192
           [ profile.mkLine (profile.mkFunction 1 "bc" "bc" "a") 2 ])
      = trace.PC frame
    ∧ profile.Location_Line
        (profile.mkLocation 2 8192
           [ profile.mkLine (profile.mkFunction 1 "bc" "bc" "a") 2 ])
      = [ profile.mkLine fn (trace.Line frame) ]
    ∧ fn ∈ profile.p_Function (buildProfileFrom [sharedKey])
    ∧ profile.Filename fn +:+ profile.Name fn
      = trace.File frame +:+ trace.Fn frame.
Proof.
  apply (location_entries [sharedKey] 1). reflexivity.
Defined.

(** X13. The function list holds no two entries with the same key
    file+name, and the name and the system name of every entry are equal. *)
Theorem function_keys_are_distinct (recs : list Record_) :
  NoDup (fnKey <$> profile.p_Function (buildProfileFrom recs))
  ∧ Forall (λ fn, profile.SystemName fn = profile.Name fn)
      (profile.p_Function (buildProfileFrom recs)).
Proof.
  destruct (buildProfileFrom_tables recs) as (b & -> & HT & _).
  rewrite (T_fn _ _ HT). split.
  - rewrite fnKey_imap_mkFn. apply firstSeenBy_NoDup.
  - apply Forall_forall. intros fn Hfn.
    apply list_elem_of_lookup in Hfn as [i Hi].
    rewrite list_lookup_imap in Hi.
    destruct (fnFrames (allFrames recs) !! i); [|done].
    by injection Hi as <-.
Qed.



(** With a shared key the second location of [sharedKey], made from the
    frame of function [c] in file [ab], names the function [bc] of file
    [a]. *)
Example sharedKey_names_other_function :
  profile.p_Location (buildProfileFrom [sharedKey]) !! 1%nat
  = Some (profile.mkLocation 2 8192
            [ profile.mkLine (profile.mkFunction 1 "bc" "bc" "a") 2 ]).
Proof. reflexivity. Qed.

Lemma samples_signatures recs :
  sampleSignature <$> profile.p_Sample (buildProfileFrom recs)
  = recordSignature <$> recs.
Proof.
  destruct (buildProfileFrom_tables recs) as (b & -> & _ & HS).
  symmetry. apply list_eq_Forall2, Forall2_fmap.
  eapply Forall2_impl; [exact HS|]. intros rec s [Hv Hm].
  unfold recordSignature, sampleSignature. rewrite Hv. f_equal.
  apply list_eq_Forall2, Forall2_fmap.
  eapply Forall2_impl; [exact Hm|]. by intros frame loc [_ ->].
Qed.

Lemma fnFrames_pairs (frames : list trace.Frame) :
  (∀ f1 f2, f1 ∈ frames → f2 ∈ frames →
            trace.PC f1 = trace.PC f2 → framePair f1 = framePair f2) →
  (∀ f1 f2, f1 ∈ frames → f2 ∈ frames →
            funcKey f1 = funcKey f2 → framePair f1 = framePair f2) →
  ∀ pr, pr ∈ framePair <$> fnFrames frames ↔ pr ∈ framePair <$> frames.
Proof.
  intros Hpc Hkey pr. rewrite !list_elem_of_fmap. split.
  - intros (f & -> & Hf). exists f. split; [done|].
    by apply (firstSeenBy_elem trace.PC), (firstSeenBy_elem funcKey).
  - intros (f & -> & Hf).
    assert (H1 : trace.PC f ∈ trace.PC <$> locFrames frames).
    { apply firstSeenBy_keys, list_elem_of_fmap. by exists f. }
    apply list_elem_of_fmap in H1 as (f1 & Hpc1 & Hf1).
    assert (Hin1 : f1 ∈ frames) by by apply (firstSeenBy_elem trace.PC).
    assert (H2 : funcKey f1 ∈ funcKey <$> fnFrames frames).
    { apply firstSeenBy_keys, list_elem_of_fmap. by exists f1. }
    apply list_elem_of_fmap in H2 as (f2 & Hk2 & Hf2).
    assert (Hin2 : f2 ∈ frames)
      by by apply (firstSeenBy_elem trace.PC), (firstSeenBy_elem funcKey).
    exists f2. split; [|done].
    rewrite (Hpc f f1 Hf Hin1 Hpc1). symmetry. by apply Hkey.
Qed.

Lemma fnFrames_pairs_NoDup (frames : list trace.Frame) :
  NoDup (framePair <$> fnFrames frames).
Proof.
  apply (NoDup_fmap_1 (λ pr : string * string, pr.1 +:+ pr.2)).
  rewrite <- list_fmap_compose. apply (firstSeenBy_NoDup funcKey).
Qed.

(** X15. Two visit orders of the same records give the same samples, as
    values with the addresses of their locations, up to the order of the
    samples, and the same addresses in the location list up to their order.
    When frames with equal program counters carry the same (file, function)
    pair and distinct pairs have distinct keys, they also give the same
    (file, name) pairs in the function list up to their order. *)
Theorem visit_order_permutes_profile (recs1 recs2 : list Record_) :
  recs1 ≡ₚ recs2 →
  sampleSignature <$> profile.p_Sample (buildProfileFrom recs1)
    ≡ₚ sampleSignature <$> profile.p_Sample (buildProfileFrom recs2)
  ∧ profile.Address <$> profile.p_Location (buildProfileFrom recs1)
    ≡ₚ profile.Address <$> profile.p_Location (buildProfileFrom recs2)
  ∧ ((∀ f1 f2, f1 ∈ allFrames recs1 → f2 ∈ allFrames recs1 →
               trace.PC f1 = trace.PC f2 → framePair f1 = framePair f2) →
     (∀ f1 f2, f1 ∈ allFrames recs1 → f2 ∈ allFrames recs1 →
               funcKey f1 = funcKey f2 → framePair f1 = framePair f2) →
     fnPair <$> profile.p_Function (buildProfileFrom recs1)
       ≡ₚ fnPair <$> profile.p_Function (buildProfileFrom recs2)).
Proof.
  intros Hp.
  assert (Hf : allFrames recs1 ≡ₚ allFrames recs2)
    by (unfold allFrames; by rewrite Hp).
  split_and!.
  - rewrite !samples_signatures. by rewrite Hp.
  - destruct (buildProfileFrom_tables recs1) as (b1 & -> & HT1 & _).
    destruct (buildProfileFrom_tables recs2) as (b2 & -> & HT2 & _).
    rewrite (T_addr _ _ HT1), (T_addr _ _ HT2). unfold locFrames.
    apply NoDup_Permutation; try apply firstSeenBy_NoDup.
    intros pc. rewrite !firstSeenBy_keys. by rewrite Hf.
  - intros Hpc Hkey.
    destruct (buildProfileFrom_tables recs1) as (b1 & -> & HT1 & _).
    destruct (buildProfileFrom_tables recs2) as (b2 & -> & HT2 & _).
    unfold fnPair.
    rewrite (Function_pairs _ _ HT1), (Function_pairs _ _ HT2).
    apply NoDup_Permutation; try apply fnFrames_pairs_NoDup.
    intros pr. rewrite !fnFrames_pairs; try done.
    + by rewrite Hf.
    + intros f1 f2 H1 H2. apply Hpc; by rewrite Hf.
    + intros f1 f2 H1 H2. apply Hkey; by rewrite Hf.
Qed.

Lemma visit_order_permutes_profile_witness :
  [mkRecord [sampleFrame] 1 5; mkRecord [otherFrame; sampleFrame] 2 9]
    ≡ₚ [mkRecord [otherFrame; sampleFrame] 2 9; mkRecord [sampleFrame] 1 5]
  ∧ fnPair
      <$> profile.p_Function
            (buildProfileFrom
               [mkRecord [sampleFrame] 1 5;
                mkRecord [otherFrame; sampleFrame] 2 9])
    ≡ₚ fnPair
         <$> profile.p_Function
               (buildProfileFrom
                  [mkRecord [otherFrame; sampleFrame] 2 9;
                   mkRecord [sampleFrame] 1 5]).
Proof.
  assert (H : [mkRecord [sampleFrame] 1 5;
               mkRecord [otherFrame; sampleFrame] 2 9]
              ≡ₚ [mkRecord [otherFrame; sampleFrame] 2 9;
                  mkRecord [sampleFrame] 1 5]) by apply perm_swap.
  split; [exact H|].
  apply (proj2 (proj2 (visit_order_permutes_profile _ _ H))).
  - apply (pairwise_decide
             (λ f1 f2, trace.PC f1 = trace.PC f2 → framePair f1 = framePair f2)).
    vm_compute. reflexivity.
  - apply (pairwise_decide
             (λ f1 f2, funcKey f1 = funcKey f2 → framePair f1 = framePair f2)).
    vm_compute. reflexivity.
Defined.

(** Without those conditions the function list depends on the order: the
    records [sharedPC] and [sharedKey] give two functions in one order and one
    in the other. *)
Example function_list_depends_on_order :
  length (profile.p_Function (buildProfileFrom [sharedPC; sharedKey])) = 2%nat
  ∧ length (profile.p_Function (buildProfileFrom [sharedKey; sharedPC]))
    = 1%nat.
Proof. split; reflexivity. Qed.

(** ** Further properties of the render service *)

Lemma serveSVGProfile_no_temp_file (o : Outcome) (fs : gset string) :
  raw o ≠ "" ∨ (∃ err, tempFile o = inl err) →
  (serveSVGProfile o fs).1 = fs.
Proof.
  unfold serveSVGProfile. intros [Hraw|[err Ht]].
  - rewrite bool_decide_eq_true_2 by done. by destruct (profErr o).
  - case_bool_decide; [by destruct (profErr o)|]. by rewrite Ht.
Qed.

(** X16. A request creates and removes no file other than its temporary
    profile file and the image beside it: every other path is on the storage
    after the request exactly when it was there before, in the raw branch,
    in the rendered branch and when the temporary file cannot be created. *)
Theorem other_files_untouched (o : Outcome) (fs : gset string) (x : string) :
  (∀ name, tempFile o = inr name → x ≠ name ∧ x ≠ name +:+ ".svg") →
  x ∈ (serveSVGProfile o fs).1 ↔ x ∈ fs.
Proof.
  intros Hx.
  destruct (decide (raw o = "")) as [Hraw|Hraw].
  2:{ by rewrite serveSVGProfile_no_temp_file by by left. }
  destruct (tempFile o) as [err|name] eqn:Ht.
  { rewrite serveSVGProfile_no_temp_file; [done|]. right. by exists err. }
  destruct (Hx name eq_refl) as [Hn Hs].
  rewrite (rendered_storage _ _ _ Hraw Ht).
  destruct (rendererRuns o), (pprofWroteOutput o), (isNil (pprofErr o));
    simpl; storage_solver.
Qed.

Lemma other_files_untouched_witness :
  "/etc/hosts" ∈ (serveSVGProfile failedRender {[ "/etc/hosts" ]}).1
  ↔ "/etc/hosts" ∈ ({[ "/etc/hosts" ]} : gset string).
Proof.
  apply (other_files_untouched failedRender {[ "/etc/hosts" ]} "/etc/hosts").
  intros name [= <-]. split; discriminate.
Defined.

(** X17. The handler serves a file exactly when the request is not raw, the
    temporary file, the pipeline, the flush, the close and the renderer all
    succeed, and the image exists when it is served, the renderer having
    written it or a file of that name being there already; the file served is
    the one beside the temporary file, as image/svg+xml.  When all steps
    succeed and there is no image, the answer is 404. *)
Theorem image_served_iff_all_succeed
    (o : Outcome) (fs : gset string) (contentType path : string) :
  ((serveSVGProfile o fs).2 = ServeFile contentType path
   ↔ raw o = "" ∧ contentType = "image/svg+xml"
     ∧ ∃ name, tempFile o = inr name ∧ path = name +:+ ".svg"
               ∧ profErr o = None ∧ flushErr o = None
               ∧ closeErr o = None ∧ pprofErr o = None
               ∧ (pprofWroteOutput o = true ∨ path ∈ fs))
  ∧ ((serveSVGProfile o fs).2 = StatusNotFound
     ↔ raw o = ""
       ∧ ∃ name, tempFile o = inr name
                 ∧ profErr o = None ∧ flushErr o = None
                 ∧ closeErr o = None ∧ pprofErr o = None
                 ∧ pprofWroteOutput o = false ∧ (name +:+ ".svg") ∉ fs).
Proof.
  unfold serveSVGProfile, renderedBody, httpServeFile.
  case_bool_decide as Hraw.
  { destruct (profErr o); split; split; try done;
      by intros [? _]. }
  destruct (tempFile o) as [err|name].
  { split; split; try done; by intros (_ & _ & ? & [=] & _)
                            || by intros (_ & ? & [=] & _). }
  pose proof (svg_name_fresh name) as Hne.
  destruct (profErr o) as [e1|]; [simpl|].
  { split; split; try done; [by intros (_ & _ & ? & _ & _ & [=] & _)
                            | by intros (_ & ? & _ & [=] & _)]. }
  destruct (flushErr o) as [e2|]; [simpl|].
  { split; split; try done; [by intros (_ & _ & ? & _ & _ & _ & [=] & _)
                            | by intros (_ & ? & _ & _ & [=] & _)]. }
  destruct (closeErr o) as [e3|]; [simpl|].
  { split; split; try done; [by intros (_ & _ & ? & _ & _ & _ & _ & [=] & _)
                            | by intros (_ & ? & _ & _ & _ & [=] & _)]. }
  destruct (pprofErr o) as [e4|]; [simpl|].
  { split; split; try done;
      [by intros (_ & _ & ? & _ & _ & _ & _ & _ & [=] & _)
      | by intros (_ & ? & _ & _ & _ & _ & [=] & _)]. }
  simpl. destruct (pprofWroteOutput o); simpl.
  - rewrite bool_decide_eq_true_2 by storage_solver. split; split.
    + intros [= <- <-]. split_and!; try done. exists name.
      split_and!; try done. by left.
    + intros (_ & -> & name' & [= <-] & -> & _). done.
    + done.
    + by intros (_ & ? & _ & _ & _ & _ & _ & [=] & _).
  - case_bool_decide as Hin.
    + split; split.
      * intros [= <- <-]. split_and!; try done. exists name.
        split_and!; try done. right. revert Hin. storage_solver.
      * intros (_ & -> & name' & [= <-] & -> & _). done.
      * done.
      * intros (_ & name' & [= <-] & _ & _ & _ & _ & _ & Hn).
        destruct Hn. revert Hin. storage_solver.
    + split; split.
      * done.
      * intros (_ & _ & name' & [= <-] & -> & _ & _ & _ & _ & [[=]|Hx]).
        destruct Hin. storage_solver.
      * intros _. split_and!; try done. exists name.
        split_and!; try done. intros Hx. destruct Hin. storage_solver.
      * done.
Qed.

(** X18. A rendered-branch request gives the storage back as it found it:
    when neither the temporary file nor the image existed before, and the
    request succeeds, or fails before the renderer runs, or the renderer
    leaves no output, the storage after the request is the storage before
    it. *)
Theorem storage_restored (o : Outcome) (fs : gset string) (name : string) :
  raw o = "" → tempFile o = inr name →
  name ∉ fs → (name +:+ ".svg") ∉ fs →
  rendererRuns o = false ∨ pprofErr o = None ∨ pprofWroteOutput o = false →
  (serveSVGProfile o fs).1 = fs.
Proof.
  intros Hraw Ht Hn Hs Hc. rewrite (rendered_storage _ _ _ Hraw Ht).
  pose proof (svg_name_fresh name) as Hne.
  apply set_eq. intros x.
  destruct Hc as [->|[->| ->]]; simpl.
  - storage_solver.
  - destruct (rendererRuns o), (pprofWroteOutput o); simpl; storage_solver.
  - destruct (rendererRuns o), (isNil (pprofErr o)); simpl; storage_solver.
Qed.

Lemma storage_restored_witness :
  (serveSVGProfile goodRender {[ "/etc/hosts" ]}).1 = {[ "/etc/hosts" ]}.
Proof.
  apply (storage_restored goodRender {[ "/etc/hosts" ]} "/tmp/block7").
  - reflexivity.
  - reflexivity.
  - rewrite elem_of_singleton. discriminate.
  - rewrite elem_of_singleton. discriminate.
  - right. left. reflexivity.
Defined.

(** X19. After every rendered-branch request that created its temporary
    profile file, that file is gone, whichever later step fails; and after
    one whose renderer succeeded the image is gone too, even if a file of
    that name existed before. *)
Theorem temporary_file_always_removed
    (o : Outcome) (fs : gset string) (name : string) :
  raw o = "" → tempFile o = inr name →
  (name ∉ (serveSVGProfile o fs).1)
  ∧ (rendererRuns o = true → pprofErr o = None →
     (name +:+ ".svg") ∉ (serveSVGProfile o fs).1).
Proof.
  intros Hraw Ht. rewrite (rendered_storage _ _ _ Hraw Ht). split.
  - destruct (rendererRuns o), (pprofWroteOutput o), (isNil (pprofErr o));
      simpl; storage_solver.
  - intros -> ->. simpl. destruct (pprofWroteOutput o); storage_solver.
Qed.

Lemma temporary_file_always_removed_witness :
  "/tmp/block123" ∉ (serveSVGProfile failedRender {[ "/tmp/block123" ]}).1.
Proof.
  apply (temporary_file_always_removed failedRender {[ "/tmp/block123" ]}
           "/tmp/block123"); reflexivity.
Defined.

(** ** The pipelines behind the handler *)

(** X20. When the pipeline of a route fails, the handler reports that error
    with status 500 and leaves no file: in the raw branch the message is
    "failed to get profile: " followed by the error and the storage is
    untouched; in the rendered branch it is "failed to generate profile: "
    followed by the error, the temporary file is removed and the renderer
    does not run. *)
Theorem pipeline_failure_is_reported
    (c : Category) (parseEvents : error + list trace.Event)
    (analyzeGoroutines : list trace.Event → list trace.GDesc)
    (id : string) (writeErr : option error)
    (o : Outcome) (fs : gset string) (err : error) :
  pprof c parseEvents analyzeGoroutines id = inl err →
  (raw o ≠ "" →
   serveCategory c parseEvents analyzeGoroutines id writeErr o fs
   = (fs, StatusInternalServerError ("failed to get profile: " +:+ errMsg err)))
  ∧ (∀ name, raw o = "" → tempFile o = inr name →
       serveCategory c parseEvents analyzeGoroutines id writeErr o fs
       = (fs ∖ {[ name ]},
          StatusInternalServerError
            ("failed to generate profile: " +:+ errMsg err))).
Proof.
  intros Hp. unfold serveCategory, profError. rewrite Hp.
  unfold serveSVGProfile, renderedBody, withProfErr. simpl. split.
  - intros Hraw. by rewrite bool_decide_eq_true_2.
  - intros name Hraw Ht.
    rewrite bool_decide_eq_false_2 by (by intros ?). rewrite Ht. simpl.
    f_equal. unfold osRemove. apply set_eq. intros x. storage_solver.
Qed.

Lemma pipeline_failure_is_reported_witness :
  serveCategory NetworkWait (inr threeEvents) tableA "notanumber" None
    goodRender ∅
  = (∅ ∖ {[ "/tmp/block7" ]},
     StatusInternalServerError
       "failed to generate profile: invalid goroutine type: notanumber").
Proof.
  apply (proj2 (pipeline_failure_is_reported NetworkWait (inr threeEvents)
                  tableA "notanumber" None goodRender ∅
                  (Errorf "invalid goroutine type: notanumber") eq_refl)
           "/tmp/block7"); reflexivity.
Defined.
